(** * The B+ tree leaf page of mini-sql (page/b_plus_tree_leaf_page.cpp)

    A leaf page is a header (page type, size, ids, key size, capacity, link to
    the next leaf) followed by a raw byte array [data_] in which the pairs
    (key, row id) are stored back to back: pair [i] starts at byte
    [i * pair_size], its key takes the first [GetKeySize()] bytes and its
    value the [sizeof(RowId)] bytes after them.

    The embedding keeps that layout: [data_] is a list of bytes; [KeyAt],
    [ValueAt], [SetKeyAt], [SetValueAt] and [CopyNFrom] read and write byte
    ranges of it, and the loops of the source are recursive functions with
    the source's loop conditions.  A method that updates the page returns the
    updated page; a method with two pages returns both.

    A C++ [int] is a [Z].  Signed overflow is undefined in C++; on a page with
    [0 <= size <= max_size] every index the operations compute lies between
    [-1] and [max_size] (lemmas [KeyIndex_loop_range] and [KeyIndex_range],
    and the sizes stated with each operation).  A read or a store outside
    the array is undefined as well; the statements are about pages whose
    capacity fits the array ([page_wf]), where none happens.

    The first part of the file holds the definitions, the second part the
    properties. *)

From Stdlib Require Import ZArith List Lia Sorted.
From Stdlib Require Strings.Byte.
From Stdlib Require Import Init.Byte.
From stdpp Require Import base tactics option list numbers sorting.
From Equations Require Import Equations.

Local Open Scope Z_scope.

(** ** Raw memory: byte ranges of an array *)

Module Mem.

(** [read buf off len]: the [len] bytes of [buf] starting at offset [off]. *)
Definition read (buf : list byte) (off len : nat) : list byte :=
  take len (drop off buf).

(** [write buf off bs]: [buf] with the bytes [bs] stored from offset [off]
    on, as [memcpy(buf + off, bs, length bs)] does.  The array keeps its
    extent; storing past its end is undefined behaviour in C++ and the
    bytes that would fall outside are dropped here. *)
Definition write (buf : list byte) (off : nat) (bs : list byte) : list byte :=
  take (length buf) (take off buf ++ bs ++ drop (off + length bs) buf).

End Mem.

(** ** Keys, row ids, the key manager and the page *)

(** A serialized key: the [GetKeySize()] bytes a [GenericKey *] points to. *)
Definition GenericKey : Type := list byte.

(** A row id, by its object representation: [sizeof(RowId)] bytes, copied as
    they are. *)
Definition RowId : Type := list byte.

Definition page_id_t : Type := Z.

(** The comparator the caller hands to every search: [CompareKeys a b] is
    negative, zero or positive as [a] is before, equal to or after [b]. *)
Record KeyManager : Type := { CompareKeys : GenericKey -> GenericKey -> Z }.

(** What the spec asks of the comparator: a total order on keys, up to the
    keys it declares equal. *)
Record key_order (KM : KeyManager) : Prop := {
  cmp_antisym : forall a b, Z.sgn (CompareKeys KM a b) = - Z.sgn (CompareKeys KM b a);
  cmp_trans : forall a b c,
    CompareKeys KM a b < 0 -> CompareKeys KM b c < 0 -> CompareKeys KM a c < 0;
  cmp_equal : forall a b c,
    CompareKeys KM a b = 0 -> Z.sgn (CompareKeys KM a c) = Z.sgn (CompareKeys KM b c)
}.

(** Key order on pairs, and invariant 1 of the data model: strictly ascending
    keys, hence no two equal keys. *)
Definition key_lt (KM : KeyManager) (a b : GenericKey * RowId) : Prop :=
  CompareKeys KM a.1 b.1 < 0.

Definition sorted (KM : KeyManager) (l : list (GenericKey * RowId)) : Prop :=
  StronglySorted (key_lt KM) l.

(** Every key of [l1] is before every key of [l2]: the order of the pairs of
    a left sibling and of its right sibling. *)
Definition keys_before (KM : KeyManager) (l1 l2 : list (GenericKey * RowId)) : Prop :=
  Forall (fun a => Forall (key_lt KM a) l2) l1.

Inductive IndexPageType : Type := INVALID_INDEX_PAGE | LEAF_PAGE | INTERNAL_PAGE.

(** Modelled from the spec: the header fields of a leaf page (section 3 of the
    spec); their declarations, in page/b_plus_tree_page.h and
    page/b_plus_tree_leaf_page.h, are not part of the sources.  [data_] is the
    byte array behind the header. *)
Record LeafPage : Type := mkLeafPage {
  page_type_ : IndexPageType;
  key_size_ : Z;
  size_ : Z;
  max_size_ : Z;
  parent_page_id_ : page_id_t;
  page_id_ : page_id_t;
  next_page_id_ : page_id_t;
  data_ : list byte
}.

(** Modelled from the spec: the accessors of the header fields, inherited
    from the base page class (absent from the sources); each reads or stores
    its field, and [IncreaseSize] adds to [size]. *)
Definition GetSize (p : LeafPage) : Z := size_ p.
Definition GetMaxSize (p : LeafPage) : Z := max_size_ p.
Definition GetKeySize (p : LeafPage) : Z := key_size_ p.
Definition GetPageId (p : LeafPage) : page_id_t := page_id_ p.
Definition GetParentPageId (p : LeafPage) : page_id_t := parent_page_id_ p.
Definition GetPageType (p : LeafPage) : IndexPageType := page_type_ p.

Definition SetPageType (p : LeafPage) (t : IndexPageType) : LeafPage :=
  mkLeafPage t (key_size_ p) (size_ p) (max_size_ p) (parent_page_id_ p)
             (page_id_ p) (next_page_id_ p) (data_ p).
Definition SetKeySize (p : LeafPage) (key_size : Z) : LeafPage :=
  mkLeafPage (page_type_ p) key_size (size_ p) (max_size_ p) (parent_page_id_ p)
             (page_id_ p) (next_page_id_ p) (data_ p).
Definition SetSize (p : LeafPage) (size : Z) : LeafPage :=
  mkLeafPage (page_type_ p) (key_size_ p) size (max_size_ p) (parent_page_id_ p)
             (page_id_ p) (next_page_id_ p) (data_ p).
Definition SetMaxSize (p : LeafPage) (max_size : Z) : LeafPage :=
  mkLeafPage (page_type_ p) (key_size_ p) (size_ p) max_size (parent_page_id_ p)
             (page_id_ p) (next_page_id_ p) (data_ p).
Definition SetParentPageId (p : LeafPage) (parent_id : page_id_t) : LeafPage :=
  mkLeafPage (page_type_ p) (key_size_ p) (size_ p) (max_size_ p) parent_id
             (page_id_ p) (next_page_id_ p) (data_ p).
Definition SetPageId (p : LeafPage) (page_id : page_id_t) : LeafPage :=
  mkLeafPage (page_type_ p) (key_size_ p) (size_ p) (max_size_ p) (parent_page_id_ p)
             page_id (next_page_id_ p) (data_ p).
Definition IncreaseSize (p : LeafPage) (amount : Z) : LeafPage :=
  SetSize p (GetSize p + amount).

(** A store into [data_]; the header is not touched. *)
Definition with_data (p : LeafPage) (d : list byte) : LeafPage :=
  mkLeafPage (page_type_ p) (key_size_ p) (size_ p) (max_size_ p) (parent_page_id_ p)
             (page_id_ p) (next_page_id_ p) d.

(** Lines 32-38. *)
Definition GetNextPageId (p : LeafPage) : page_id_t := next_page_id_ p.
Definition SetNextPageId (p : LeafPage) (next_page_id : page_id_t) : LeafPage :=
  mkLeafPage (page_type_ p) (key_size_ p) (size_ p) (max_size_ p) (parent_page_id_ p)
             (page_id_ p) next_page_id (data_ p).

(** [sizeof(RowId)] and the sentinel [INVALID_PAGE_ID] come from headers that
    are not part of the sources; the page is modelled for any values of
    them. *)
Class PageConfig : Type := {
  sizeof_RowId : nat;
  INVALID_PAGE_ID : page_id_t
}.

(** ** The leaf page *)

Section LeafPage.

Context {config : PageConfig}.

(** The layout macros of lines 5-8; [pairs_off] is the start of [data_],
    offset [0] of the byte list. *)
Definition pair_size (p : LeafPage) : Z := GetKeySize p + Z.of_nat sizeof_RowId.
Definition key_off : Z := 0.
Definition val_off (p : LeafPage) : Z := GetKeySize p.

(** Lines 19-27. *)
Definition Init (p : LeafPage) (page_id parent_id : page_id_t) (key_size max_size : Z) : LeafPage :=
  let p := SetPageType p LEAF_PAGE in
  let p := SetSize p 0 in
  let p := SetPageId p page_id in
  let p := SetParentPageId p parent_id in
  let p := SetKeySize p key_size in
  let p := SetMaxSize p max_size in
  SetNextPageId p INVALID_PAGE_ID.

(** Lines 60-62: the key stored in slot [index], that is the [GetKeySize()]
    bytes at [pairs_off + index * pair_size + key_off]. *)
Definition KeyAt (p : LeafPage) (index : Z) : GenericKey :=
  Mem.read (data_ p) (Z.to_nat (index * pair_size p + key_off)) (Z.to_nat (GetKeySize p)).

(** Lines 64-66: [memcpy] of [GetKeySize()] bytes of [key] into slot [index]. *)
Definition SetKeyAt (p : LeafPage) (index : Z) (key : GenericKey) : LeafPage :=
  with_data p (Mem.write (data_ p) (Z.to_nat (index * pair_size p + key_off))
                         (take (Z.to_nat (GetKeySize p)) key)).

(** Lines 68-70. *)
Definition ValueAt (p : LeafPage) (index : Z) : RowId :=
  Mem.read (data_ p) (Z.to_nat (index * pair_size p + val_off p)) sizeof_RowId.

(** Lines 72-74: the assignment stores the [sizeof(RowId)] bytes of [value]. *)
Definition SetValueAt (p : LeafPage) (index : Z) (value : RowId) : LeafPage :=
  with_data p (Mem.write (data_ p) (Z.to_nat (index * pair_size p + val_off p))
                         (take sizeof_RowId value)).

(** Lines 76-78: the address of slot [index] as a [void *].  As the source of
    a [memcpy] it stands for the bytes of [data_] from that address on; as a
    destination it is the offset [PairPtrAt_off]. *)
Definition PairPtrAt_off (p : LeafPage) (index : Z) : nat :=
  Z.to_nat (index * pair_size p + key_off).
Definition PairPtrAt (p : LeafPage) (index : Z) : list byte :=
  drop (PairPtrAt_off p index) (data_ p).

(** Lines 80-82: [memcpy] of [pair_num] pairs from [src] to the offset
    [dest] of the array [buf]; no other method calls it. *)
Definition PairCopy (p : LeafPage) (buf : list byte) (dest : nat) (src : list byte)
    (pair_num : Z) : list byte :=
  Mem.write buf dest (take (Z.to_nat (pair_num * (GetKeySize p + Z.of_nat sizeof_RowId))) src).

(** Lines 87-89. *)
Definition GetItem (p : LeafPage) (index : Z) : GenericKey * RowId :=
  (KeyAt p index, ValueAt p index).

(** Lines 44-55: the loop of the binary search, from the current values of
    [left] and [right] (written [left_] and [right_]: the plain names are the
    constructors of a decision). *)
Equations? KeyIndex_loop (KM : KeyManager) (p : LeafPage) (key : GenericKey)
    (left_ right_ : Z) : Z by wf (Z.to_nat (right_ + 1 - left_)) lt :=
  KeyIndex_loop KM p key left_ right_ with decide (left_ <= right_) := {
    | left _ =>
        let mid := left_ + (right_ - left_) `quot` 2 in
        if decide (CompareKeys KM key (KeyAt p mid) <= 0)
        then KeyIndex_loop KM p key left_ (mid - 1)
        else KeyIndex_loop KM p key (mid + 1) right_
    | right _ => left_ }.
Proof.
  all: pose proof (Z.quot_pos (right_ - left_) 2);
       pose proof (Z.quot_lt_upper_bound (right_ - left_) 2 (right_ - left_ + 1)); lia.
Qed.

Definition KeyIndex (p : LeafPage) (key : GenericKey) (KM : KeyManager) : Z :=
  KeyIndex_loop KM p key 0 (GetSize p - 1).

(** Lines 101-104 and 223-226: the loop that moves the pairs of slots
    [index .. i - 1] one slot to the right, from the current [i] down. *)
Equations? shift_right_loop (p : LeafPage) (index i : Z) : LeafPage
    by wf (Z.to_nat (i - index)) lt :=
  shift_right_loop p index i with decide (i > index) := {
    | left _ =>
        let p := SetKeyAt p i (KeyAt p (i - 1)) in
        let p := SetValueAt p i (ValueAt p (i - 1)) in
        shift_right_loop p index (i - 1)
    | right _ => p }.
Proof. lia. Qed.

(** Lines 162-165 and 195-198: the loop that moves the pairs of slots
    [i + 1 .. GetSize() - 1] one slot to the left, from the current [i] up. *)
Equations? shift_left_loop (p : LeafPage) (i : Z) : LeafPage
    by wf (Z.to_nat (GetSize p - 1 - i)) lt :=
  shift_left_loop p i with decide (i < GetSize p - 1) := {
    | left _ =>
        let p := SetKeyAt p i (KeyAt p (i + 1)) in
        let p := SetValueAt p i (ValueAt p (i + 1)) in
        shift_left_loop p (i + 1)
    | right _ => p }.
Proof. unfold GetSize in *. simpl. lia. Qed.

(** Lines 99-109: returns the page and the size after the insertion. *)
Definition Insert (p : LeafPage) (key : GenericKey) (value : RowId) (KM : KeyManager)
  : LeafPage * Z :=
  let index := KeyIndex p key KM in
  let p := shift_right_loop p index (GetSize p) in
  let p := SetKeyAt p index key in
  let p := SetValueAt p index value in
  let p := IncreaseSize p 1 in
  (p, GetSize p).

(** Lines 128-131: [src] is the memory the source pointer gives access to;
    [size * pair_size] bytes of it are copied behind the last pair. *)
Definition CopyNFrom (p : LeafPage) (src : list byte) (size : Z) : LeafPage :=
  let p := with_data p (Mem.write (data_ p) (PairPtrAt_off p (GetSize p))
                                  (take (Z.to_nat (size * pair_size p)) src)) in
  IncreaseSize p size.

(** Lines 118-123: returns this page and the recipient. *)
Definition MoveHalfTo (p recipient : LeafPage) : LeafPage * LeafPage :=
  let total := GetSize p in
  let move_count := total `quot` 2 in
  let recipient := CopyNFrom recipient (PairPtrAt p (total - move_count)) move_count in
  let p := SetSize p (total - move_count) in
  (p, recipient).

(** Lines 141-148: returns the result, the content of the out-parameter
    [value] after the call, and the page. *)
Definition Lookup (p : LeafPage) (key : GenericKey) (value : RowId) (KM : KeyManager)
  : bool * RowId * LeafPage :=
  let index := KeyIndex p key KM in
  if decide (index < GetSize p /\ CompareKeys KM key (KeyAt p index) = 0)
  then (true, ValueAt p index, p)
  else (false, value, p).

(** Lines 159-170: returns the page and the size after the call. *)
Definition RemoveAndDeleteRecord (p : LeafPage) (key : GenericKey) (KM : KeyManager)
  : LeafPage * Z :=
  let index := KeyIndex p key KM in
  if decide (index < GetSize p /\ CompareKeys KM key (KeyAt p index) = 0)
  then
    let p := shift_left_loop p index in
    let p := IncreaseSize p (-1) in
    (p, GetSize p)
  else (p, GetSize p).

(** Lines 180-184: returns this page and the recipient. *)
Definition MoveAllTo (p recipient : LeafPage) : LeafPage * LeafPage :=
  let recipient := CopyNFrom recipient (PairPtrAt p 0) (GetSize p) in
  let recipient := SetNextPageId recipient (GetNextPageId p) in
  let p := SetSize p 0 in
  (p, recipient).

(** Lines 205-209. *)
Definition CopyLastFrom (p : LeafPage) (key : GenericKey) (value : RowId) : LeafPage :=
  let p := SetKeyAt p (GetSize p) key in
  let p := SetValueAt p (GetSize p) value in
  IncreaseSize p 1.

(** Lines 193-200: returns this page and the recipient. *)
Definition MoveFirstToEndOf (p recipient : LeafPage) : LeafPage * LeafPage :=
  let recipient := CopyLastFrom recipient (KeyAt p 0) (ValueAt p 0) in
  let p := shift_left_loop p 0 in
  let p := IncreaseSize p (-1) in
  (p, recipient).

(** Lines 222-230. *)
Definition CopyFirstFrom (p : LeafPage) (key : GenericKey) (value : RowId) : LeafPage :=
  let p := shift_right_loop p 0 (GetSize p) in
  let p := SetKeyAt p 0 key in
  let p := SetValueAt p 0 value in
  IncreaseSize p 1.

(** Lines 214-217: returns this page and the recipient. *)
Definition MoveLastToFrontOf (p recipient : LeafPage) : LeafPage * LeafPage :=
  let recipient := CopyFirstFrom recipient (KeyAt p (GetSize p - 1)) (ValueAt p (GetSize p - 1)) in
  let p := IncreaseSize p (-1) in
  (p, recipient).

(** The live pairs of a page: slots [0 .. GetSize() - 1], in order. *)
Definition pairs (p : LeafPage) : list (GenericKey * RowId) :=
  GetItem p <$> seqZ 0 (GetSize p).

(** Invariants 2 and 3 of the data model: the size is within the capacity and
    the capacity fits the byte array. *)
Record page_wf (p : LeafPage) : Prop := {
  wf_key_size : 0 <= GetKeySize p;
  wf_size : 0 <= GetSize p <= GetMaxSize p;
  wf_room : GetMaxSize p * pair_size p <= Z.of_nat (length (data_ p))
}.

(** [key] is the key of a live pair, up to the comparator. *)
Definition has_key (KM : KeyManager) (p : LeafPage) (key : GenericKey) : Prop :=
  Exists (fun kv => CompareKeys KM key kv.1 = 0) (pairs p).

Global Instance key_lt_dec (KM : KeyManager) : RelDecision (key_lt KM).
Proof. intros a b. unfold key_lt. apply _. Defined.

Global Instance sorted_dec (KM : KeyManager) l : Decision (sorted KM l).
Proof. unfold sorted. apply _. Defined.

Global Instance keys_before_dec (KM : KeyManager) l1 l2 : Decision (keys_before KM l1 l2).
Proof. unfold keys_before. apply _. Defined.

Global Instance has_key_dec (KM : KeyManager) p key : Decision (has_key KM p key).
Proof. unfold has_key. apply _. Defined.

(** What [Insert] expects of its arguments: a free slot, a key of the page's
    key size and a whole row id. *)
Definition insert_fits (p : LeafPage) (key : GenericKey) (value : RowId) : Prop :=
  GetSize p < GetMaxSize p /\
  length key = Z.to_nat (GetKeySize p) /\ length value = sizeof_RowId.

(** The sorted insertion of the spec: the pair goes before the first pair
    whose key is not before its key. *)
Fixpoint insert_sorted (KM : KeyManager) (kv : GenericKey * RowId)
    (l : list (GenericKey * RowId)) : list (GenericKey * RowId) :=
  match l with
  | [] => [kv]
  | x :: l' =>
      if decide (CompareKeys KM kv.1 x.1 <= 0) then kv :: x :: l'
      else x :: insert_sorted KM kv l'
  end.

(** Sequences of calls of [Insert] and [RemoveAndDeleteRecord]. *)
Inductive op : Type :=
| OpInsert (key : GenericKey) (value : RowId)
| OpRemove (key : GenericKey).

Definition apply_op (KM : KeyManager) (p : LeafPage) (o : op) : LeafPage :=
  match o with
  | OpInsert key value => (Insert p key value KM).1
  | OpRemove key => (RemoveAndDeleteRecord p key KM).1
  end.

Definition run (KM : KeyManager) (p : LeafPage) (ops : list op) : LeafPage :=
  foldl (apply_op KM) p ops.

(** Every [Insert] of the sequence is called on a page with a free slot. *)
Fixpoint within_capacity (KM : KeyManager) (p : LeafPage) (ops : list op) : Prop :=
  match ops with
  | [] => True
  | OpInsert key value :: ops' =>
      insert_fits p key value /\ within_capacity KM (apply_op KM p (OpInsert key value)) ops'
  | OpRemove key :: ops' => within_capacity KM (apply_op KM p (OpRemove key)) ops'
  end.

(** Moreover no [Insert] of the sequence is given a key the page holds. *)
Fixpoint fresh_keys (KM : KeyManager) (p : LeafPage) (ops : list op) : Prop :=
  match ops with
  | [] => True
  | OpInsert key value :: ops' =>
      ~ has_key KM p key /\ fresh_keys KM (apply_op KM p (OpInsert key value)) ops'
  | OpRemove key :: ops' => fresh_keys KM (apply_op KM p (OpRemove key)) ops'
  end.

(** ** Notions for the proofs *)

(** Slot [i] lies within the byte array. *)
Definition slot_in_buffer (p : LeafPage) (i : Z) : Prop :=
  0 <= i /\ (i + 1) * pair_size p <= Z.of_nat (length (data_ p)).

(** [q] is [p] after stores into the array: same header, same extent. *)
Definition buffer_update (p q : LeafPage) : Prop :=
  q = with_data p (data_ q) /\ length (data_ q) = length (data_ p).

(** The body of [Insert] and of [CopyFirstFrom] once the position is known,
    and the body of the found branch of [RemoveAndDeleteRecord] and of
    [MoveFirstToEndOf]. *)
Definition insert_at (p : LeafPage) (index : Z) (key : GenericKey) (value : RowId) : LeafPage :=
  IncreaseSize
    (SetValueAt (SetKeyAt (shift_right_loop p index (GetSize p)) index key) index value) 1.

Definition remove_at (p : LeafPage) (index : Z) : LeafPage :=
  IncreaseSize (shift_left_loop p index) (-1).

(** [q] is [p] with [size] set to [n] and some bytes of the array rewritten:
    what every operation of the page does to it. *)
Definition resized (p q : LeafPage) (n : Z) : Prop :=
  q = SetSize (with_data p (data_ q)) n /\ length (data_ q) = length (data_ p).

End LeafPage.

(** ** A concrete index: keys that are 4-byte integers *)

(** The [n] low bytes of [z], least significant first. *)
Fixpoint le_bytes (n : nat) (z : Z) : list byte :=
  match n with
  | O => []
  | S n' =>
      default x00 (Strings.Byte.of_N (Z.to_N (z `mod` 256))) :: le_bytes n' (z `div` 256)
  end.

Definition le_value (bs : list byte) : Z :=
  foldr (fun b acc => Z.of_N (Strings.Byte.to_N b) + 256 * acc) 0 bs.

(** A key manager that orders keys by the integer they encode. *)
Definition IntKM : KeyManager :=
  {| CompareKeys := fun a b =>
       match le_value a ?= le_value b with Lt => -1 | Eq => 0 | Gt => 1 end |}.

Definition key32 (z : Z) : GenericKey := le_bytes 4 z.

(** A row id of 8 bytes. *)
Definition rid (z : Z) : RowId := le_bytes 8 z.

(** Row ids of 8 bytes, and [-1] for no page. *)
Definition scenario_config : PageConfig :=
  {| sizeof_RowId := 8; INVALID_PAGE_ID := -1 |}.

(** A page as it comes from the buffer pool, before [Init]: a zeroed header
    and a zeroed array, here of 64 bytes (five pairs of 12 bytes fit). *)
Definition blank_page : LeafPage :=
  mkLeafPage INVALID_INDEX_PAGE 0 0 0 0 0 0 (repeat x00 64).

Section Scenario.

#[local] Existing Instance scenario_config.

(** The scenario of section 8 of the spec: [Init] with key size 4 and
    capacity 4, then [Insert] of the keys 30, 10 and 20, then of 40. *)
Definition leaf0 (page_id parent_id : page_id_t) : LeafPage :=
  Init blank_page page_id parent_id 4 4.
Definition leaf3 (page_id parent_id : page_id_t) : LeafPage :=
  let p := leaf0 page_id parent_id in
  let p := (Insert p (key32 30) (rid 300) IntKM).1 in
  let p := (Insert p (key32 10) (rid 100) IntKM).1 in
  (Insert p (key32 20) (rid 200) IntKM).1.
Definition leaf4 (page_id parent_id : page_id_t) : LeafPage :=
  (Insert (leaf3 page_id parent_id) (key32 40) (rid 400) IntKM).1.

(** The two halves of the split of [leaf4], on pages 1 and 2. *)
Definition split_left : LeafPage :=
  (MoveHalfTo (leaf4 1 0) (Init blank_page 2 0 4 4)).1.
Definition split_right : LeafPage :=
  (MoveHalfTo (leaf4 1 0) (Init blank_page 2 0 4 4)).2.

End Scenario.

(** * Properties *)

(** ** Byte ranges *)

Lemma length_mem_read buf off len :
  (off + len <= length buf)%nat -> length (Mem.read buf off len) = len.
Proof.
  intros H. unfold Mem.read. rewrite length_take, length_drop. lia.
Qed.

Lemma length_mem_write buf off bs : length (Mem.write buf off bs) = length buf.
Proof.
  unfold Mem.write.
  rewrite length_take, !length_app, length_take, length_drop. lia.
Qed.

Lemma lookup_mem_read buf off len k :
  Mem.read buf off len !! k = if decide (k < len)%nat then buf !! (off + k)%nat else None.
Proof.
  unfold Mem.read. case_decide.
  - rewrite lookup_take_lt by done. apply lookup_drop.
  - apply lookup_take_ge. lia.
Qed.

Lemma lookup_mem_write buf off bs k :
  Mem.write buf off bs !! k =
    if decide (off <= k < off + length bs /\ k < length buf)%nat
    then bs !! (k - off)%nat else buf !! k.
Proof.
  unfold Mem.write.
  destruct (decide (k < length buf)%nat) as [Hk|Hk].
  2:{ rewrite lookup_take_ge by lia. case_decide; [lia|].
      symmetry. apply lookup_ge_None. lia. }
  rewrite lookup_take_lt by done.
  destruct (decide (k < off)%nat) as [Hlt|Hge].
  { rewrite lookup_app_l by (rewrite length_take; lia).
    rewrite lookup_take_lt by done. case_decide; [lia|done]. }
  rewrite lookup_app_r by (rewrite length_take; lia).
  rewrite length_take, Nat.min_l by lia.
  destruct (decide (k < off + length bs)%nat) as [Hin|Hout].
  { rewrite lookup_app_l by lia. case_decide; [done|lia]. }
  rewrite lookup_app_r by lia. rewrite lookup_drop.
  case_decide; [lia|]. f_equal. lia.
Qed.

(** Reading back exactly what was written. *)
Lemma mem_read_write_same buf off bs :
  (off + length bs <= length buf)%nat -> Mem.read (Mem.write buf off bs) off (length bs) = bs.
Proof.
  intros H. apply list_eq. intros k.
  rewrite lookup_mem_read, lookup_mem_write.
  destruct (decide (k < length bs)%nat).
  - case_decide; [f_equal; lia | lia].
  - symmetry. apply lookup_ge_None. lia.
Qed.

(** Reading a part of what was written. *)
Lemma mem_read_write_inside buf off bs a len :
  (off + length bs <= length buf)%nat -> (a + len <= length bs)%nat ->
  Mem.read (Mem.write buf off bs) (off + a) len = Mem.read bs a len.
Proof.
  intros H1 H2. apply list_eq. intros k.
  rewrite !lookup_mem_read, lookup_mem_write.
  destruct (decide (k < len)%nat); [|done].
  case_decide; [f_equal; lia | lia].
Qed.

(** A range that the write does not overlap reads as before. *)
Lemma mem_read_write_other buf off bs off' len :
  (off' + len <= off \/ off + length bs <= off')%nat ->
  Mem.read (Mem.write buf off bs) off' len = Mem.read buf off' len.
Proof.
  intros H. apply list_eq. intros k.
  rewrite !lookup_mem_read, lookup_mem_write.
  destruct (decide (k < len)%nat); [|done].
  case_decide; [lia | done].
Qed.

Lemma mem_read_drop buf s off len :
  Mem.read (drop s buf) off len = Mem.read buf (s + off) len.
Proof. unfold Mem.read. by rewrite drop_drop. Qed.

Lemma mem_read_take buf n off len :
  (off + len <= n)%nat -> Mem.read (take n buf) off len = Mem.read buf off len.
Proof.
  intros H. apply list_eq. intros k. rewrite !lookup_mem_read.
  destruct (decide (k < len)%nat); [|done].
  apply lookup_take_lt. lia.
Qed.

(** ** The comparator as an order *)

Section Order.

Context (KM : KeyManager) (HKM : key_order KM).

Lemma cmp_refl a : CompareKeys KM a a = 0.
Proof. pose proof (cmp_antisym KM HKM a a). lia. Qed.

Lemma cmp_flip_lt a b : CompareKeys KM a b < 0 <-> 0 < CompareKeys KM b a.
Proof. pose proof (cmp_antisym KM HKM a b). lia. Qed.

Lemma cmp_le_lt_trans a b c :
  CompareKeys KM a b <= 0 -> CompareKeys KM b c < 0 -> CompareKeys KM a c < 0.
Proof.
  intros Hab Hbc.
  destruct (decide (CompareKeys KM a b = 0)) as [He|Hne].
  - pose proof (cmp_equal KM HKM a b c He). lia.
  - apply (cmp_trans KM HKM a b c); [lia|done].
Qed.

Lemma cmp_le_trans a b c :
  CompareKeys KM a b <= 0 -> CompareKeys KM b c <= 0 -> CompareKeys KM a c <= 0.
Proof.
  intros Hab Hbc.
  destruct (decide (CompareKeys KM b c = 0)) as [He|Hne].
  - pose proof (cmp_equal KM HKM b c a He).
    pose proof (cmp_antisym KM HKM a b). pose proof (cmp_antisym KM HKM a c). lia.
  - pose proof (cmp_le_lt_trans a b c). lia.
Qed.

Lemma sorted_lookup l i j a b :
  sorted KM l -> l !! i = Some a -> l !! j = Some b -> (i < j)%nat -> key_lt KM a b.
Proof.
  intros Hs. revert i j. induction Hs as [|x l Hs IH Hall]; intros i j Hi Hj Hij.
  - by rewrite lookup_nil in Hi.
  - destruct j as [|j]; [lia|]. destruct i as [|i]; simpl in *.
    + injection Hi as ->. rewrite Forall_forall in Hall. apply Hall.
      by eapply list_elem_of_lookup_2.
    + apply (IH i j); [done|done|lia].
Qed.

Lemma sorted_of_lookup l :
  (forall i j a b, l !! i = Some a -> l !! j = Some b -> (i < j)%nat -> key_lt KM a b) ->
  sorted KM l.
Proof.
  induction l as [|x l IH]; intros H; [constructor|].
  constructor.
  - apply IH. intros i j a b Hi Hj Hij. apply (H (S i) (S j)); [done|done|lia].
  - apply Forall_forall. intros y Hy.
    apply list_elem_of_lookup_1 in Hy as [k Hk].
    apply (H 0%nat (S k)); [done|done|lia].
Qed.

Lemma sorted_no_duplicates l i j a b :
  sorted KM l -> l !! i = Some a -> l !! j = Some b -> i <> j ->
  CompareKeys KM a.1 b.1 <> 0.
Proof.
  intros Hs Hi Hj Hne.
  destruct (decide (i < j)%nat) as [Hlt|Hge].
  - pose proof (sorted_lookup l i j a b Hs Hi Hj Hlt) as H. unfold key_lt in H. lia.
  - pose proof (sorted_lookup l j i b a Hs Hj Hi ltac:(lia)) as H. unfold key_lt in H.
    apply cmp_flip_lt in H. lia.
Qed.

Lemma keys_before_elem l1 l2 :
  keys_before KM l1 l2 <-> forall a b, a ∈ l1 -> b ∈ l2 -> key_lt KM a b.
Proof.
  unfold keys_before. rewrite Forall_forall. split.
  - intros H a b Ha Hb. specialize (H a Ha). rewrite Forall_forall in H. by apply H.
  - intros H a Ha. apply Forall_forall. intros b Hb. by apply H.
Qed.

End Order.

(** ** The page *)

Section LeafPageFacts.

Context {config : PageConfig}.

(** *** Reading a slot after a store *)

Lemma slot_nonneg (ps i : Z) : 0 <= ps -> 0 <= i -> 0 <= i * ps.
Proof. intros. nia. Qed.

Lemma slot_apart (ps i j : Z) : 0 <= ps -> i < j -> i * ps + ps <= j * ps.
Proof. intros. nia. Qed.

Ltac slot_arith :=
  unfold slot_in_buffer, pair_size, key_off, val_off, GetKeySize, PairPtrAt_off in *;
  simpl in *;
  repeat match goal with
  | |- context [Z.to_nat (?i * ?ps + _)] =>
      lazymatch goal with
      | _ : 0 <= i * ps |- _ => fail
      | _ => assert (0 <= i * ps) by (apply slot_nonneg; lia)
      end
  end;
  try lia.

Ltac slot_apart i j :=
  let H := fresh in
  assert (H : i < j \/ j < i \/ i = j) by lia;
  destruct H as [H | [H | H]];
  [ pose proof (fun ps H0 => slot_apart ps i j H0 H)
  | pose proof (fun ps H0 => slot_apart ps j i H0 H)
  | subst ].

Lemma length_KeyAt p i :
  0 <= GetKeySize p -> slot_in_buffer p i ->
  length (KeyAt p i) = Z.to_nat (GetKeySize p).
Proof.
  intros Hk Hi. unfold KeyAt. apply length_mem_read. slot_arith.
Qed.

Lemma length_ValueAt p i :
  0 <= GetKeySize p -> slot_in_buffer p i ->
  length (ValueAt p i) = sizeof_RowId.
Proof.
  intros Hk Hi. unfold ValueAt. apply length_mem_read. slot_arith.
Qed.

Lemma KeyAt_SetKeyAt_same p i key :
  0 <= GetKeySize p -> slot_in_buffer p i ->
  length key = Z.to_nat (GetKeySize p) ->
  KeyAt (SetKeyAt p i key) i = key.
Proof.
  intros Hk Hi Hlen. unfold KeyAt, SetKeyAt.
  rewrite firstn_all2 by lia.
  change (GetKeySize (with_data p ?d)) with (GetKeySize p).
  change (pair_size (with_data p ?d)) with (pair_size p).
  cbn [data_ with_data]. rewrite <- Hlen.
  apply mem_read_write_same. slot_arith.
Qed.

Lemma KeyAt_SetKeyAt_other p i j key :
  0 <= GetKeySize p -> 0 <= i -> 0 <= j -> i <> j ->
  KeyAt (SetKeyAt p i key) j = KeyAt p j.
Proof.
  intros Hk Hi Hj Hne. unfold KeyAt, SetKeyAt.
  change (GetKeySize (with_data p ?d)) with (GetKeySize p).
  change (pair_size (with_data p ?d)) with (pair_size p).
  cbn [data_ with_data].
  apply mem_read_write_other. rewrite length_take.
  slot_apart i j; [ specialize (H0 (pair_size p)) ..| lia ]; slot_arith.
Qed.

Lemma ValueAt_SetKeyAt p i j key :
  0 <= GetKeySize p -> 0 <= i -> 0 <= j ->
  ValueAt (SetKeyAt p i key) j = ValueAt p j.
Proof.
  intros Hk Hi Hj. unfold ValueAt, SetKeyAt.
  change (val_off (with_data p ?d)) with (val_off p).
  change (pair_size (with_data p ?d)) with (pair_size p).
  cbn [data_ with_data].
  apply mem_read_write_other. rewrite length_take.
  slot_apart i j; [ specialize (H0 (pair_size p)) ..| ]; slot_arith.
Qed.

Lemma KeyAt_SetValueAt p i j value :
  0 <= GetKeySize p -> 0 <= i -> 0 <= j ->
  KeyAt (SetValueAt p i value) j = KeyAt p j.
Proof.
  intros Hk Hi Hj. unfold KeyAt, SetValueAt.
  change (GetKeySize (with_data p ?d)) with (GetKeySize p).
  change (pair_size (with_data p ?d)) with (pair_size p).
  cbn [data_ with_data].
  apply mem_read_write_other. rewrite length_take.
  slot_apart i j; [ specialize (H0 (pair_size p)) ..| ]; slot_arith.
Qed.

Lemma ValueAt_SetValueAt_same p i value :
  0 <= GetKeySize p -> slot_in_buffer p i ->
  length value = sizeof_RowId ->
  ValueAt (SetValueAt p i value) i = value.
Proof.
  intros Hk Hi Hlen. unfold ValueAt, SetValueAt.
  rewrite firstn_all2 by lia.
  change (val_off (with_data p ?d)) with (val_off p).
  change (pair_size (with_data p ?d)) with (pair_size p).
  cbn [data_ with_data]. rewrite <- Hlen at 1.
  apply mem_read_write_same. slot_arith.
Qed.

Lemma ValueAt_SetValueAt_other p i j value :
  0 <= GetKeySize p -> 0 <= i -> 0 <= j -> i <> j ->
  ValueAt (SetValueAt p i value) j = ValueAt p j.
Proof.
  intros Hk Hi Hj Hne. unfold ValueAt, SetValueAt.
  change (val_off (with_data p ?d)) with (val_off p).
  change (pair_size (with_data p ?d)) with (pair_size p).
  cbn [data_ with_data].
  apply mem_read_write_other. rewrite length_take.
  slot_apart i j; [ specialize (H0 (pair_size p)) ..| lia ]; slot_arith.
Qed.

(** The two stores of one pair, [SetKeyAt(i, key); SetValueAt(i, value)]. *)
Lemma GetItem_store_same p i key value :
  0 <= GetKeySize p -> slot_in_buffer p i ->
  length key = Z.to_nat (GetKeySize p) -> length value = sizeof_RowId ->
  GetItem (SetValueAt (SetKeyAt p i key) i value) i = (key, value).
Proof.
  intros Hk Hi Hkey Hval. unfold GetItem. f_equal.
  - rewrite KeyAt_SetValueAt by (done || apply Hi).
    by apply KeyAt_SetKeyAt_same.
  - apply ValueAt_SetValueAt_same; [done| |done].
    unfold slot_in_buffer, SetKeyAt in *. cbn [data_ with_data].
    by rewrite length_mem_write.
Qed.

Lemma GetItem_store_other p i j key value :
  0 <= GetKeySize p -> 0 <= i -> 0 <= j -> i <> j ->
  GetItem (SetValueAt (SetKeyAt p i key) i value) j = GetItem p j.
Proof.
  intros Hk Hi Hj Hne. unfold GetItem. f_equal.
  - rewrite KeyAt_SetValueAt by done. by apply KeyAt_SetKeyAt_other.
  - rewrite ValueAt_SetValueAt_other by done. by apply ValueAt_SetKeyAt.
Qed.

(** *** Stores leave the header and the extent of the array alone *)

Lemma buffer_update_refl p : buffer_update p p.
Proof. split; [by destruct p | done]. Qed.

Lemma buffer_update_trans p q r :
  buffer_update p q -> buffer_update q r -> buffer_update p r.
Proof.
  intros [Hq Hlq] [Hr Hlr]. split; [|congruence].
  rewrite Hr at 1. rewrite Hq at 1. done.
Qed.

Lemma buffer_update_SetKeyAt p i key : buffer_update p (SetKeyAt p i key).
Proof. split; [done|]. apply length_mem_write. Qed.

Lemma buffer_update_SetValueAt p i value : buffer_update p (SetValueAt p i value).
Proof. split; [done|]. apply length_mem_write. Qed.

Lemma buffer_update_store p i key value :
  buffer_update p (SetValueAt (SetKeyAt p i key) i value).
Proof.
  eapply buffer_update_trans;
    [apply buffer_update_SetKeyAt | apply buffer_update_SetValueAt].
Qed.

Lemma buffer_update_header p q :
  buffer_update p q ->
  GetSize q = GetSize p /\ GetKeySize q = GetKeySize p /\ GetMaxSize q = GetMaxSize p /\
  GetNextPageId q = GetNextPageId p /\ GetPageId q = GetPageId p /\
  GetParentPageId q = GetParentPageId p /\ GetPageType q = GetPageType p /\
  pair_size q = pair_size p /\ length (data_ q) = length (data_ p).
Proof. intros [-> Hl]. by repeat split. Qed.

Lemma buffer_update_slot p q i :
  buffer_update p q -> slot_in_buffer p i -> slot_in_buffer q i.
Proof.
  intros H. apply buffer_update_header in H.
  unfold slot_in_buffer. destruct H as (_ & _ & _ & _ & _ & _ & _ & -> & ->). done.
Qed.

(** *** The loops *)

Lemma shift_right_loop_eq p index i :
  shift_right_loop p index i =
    if decide (i > index)
    then shift_right_loop
           (SetValueAt (SetKeyAt p i (KeyAt p (i - 1))) i
                       (ValueAt (SetKeyAt p i (KeyAt p (i - 1))) (i - 1)))
           index (i - 1)
    else p.
Proof.
  rewrite (shift_right_loop_equation_1 p index i).
  by destruct (decide (i > index)).
Qed.

Lemma shift_left_loop_eq p i :
  shift_left_loop p i =
    if decide (i < GetSize p - 1)
    then shift_left_loop
           (SetValueAt (SetKeyAt p i (KeyAt p (i + 1))) i
                       (ValueAt (SetKeyAt p i (KeyAt p (i + 1))) (i + 1)))
           (i + 1)
    else p.
Proof.
  rewrite (shift_left_loop_equation_1 p i).
  by destruct (decide (i < GetSize p - 1)).
Qed.

Lemma KeyIndex_loop_eq KM p key left_ right_ :
  KeyIndex_loop KM p key left_ right_ =
    if decide (left_ <= right_)
    then let mid := left_ + (right_ - left_) `quot` 2 in
         if decide (CompareKeys KM key (KeyAt p mid) <= 0)
         then KeyIndex_loop KM p key left_ (mid - 1)
         else KeyIndex_loop KM p key (mid + 1) right_
    else left_.
Proof.
  rewrite (KeyIndex_loop_equation_1 KM p key left_ right_).
  by destruct (decide (left_ <= right_)).
Qed.

Lemma pair_size_nonneg p : 0 <= GetKeySize p -> 0 <= pair_size p.
Proof. unfold pair_size. lia. Qed.

Lemma slot_in_buffer_le p i j :
  0 <= GetKeySize p -> 0 <= j <= i -> slot_in_buffer p i -> slot_in_buffer p j.
Proof.
  intros Hk Hj [Hi Hb]. apply pair_size_nonneg in Hk.
  split; [lia|]. nia.
Qed.

Lemma slot_in_buffer_lt p i n :
  0 <= GetKeySize p -> 0 <= i < n ->
  n * pair_size p <= Z.of_nat (length (data_ p)) -> slot_in_buffer p i.
Proof.
  intros Hk Hi Hb. apply pair_size_nonneg in Hk.
  split; [lia|]. nia.
Qed.

(** The copy of slot [j] into slot [i] made by one round of either loop. *)
Lemma GetItem_copy_slot p i j k :
  0 <= GetKeySize p -> slot_in_buffer p i -> slot_in_buffer p j -> 0 <= k ->
  GetItem (SetValueAt (SetKeyAt p i (KeyAt p j)) i
                      (ValueAt (SetKeyAt p i (KeyAt p j)) j)) k =
    if decide (k = i) then GetItem p j else GetItem p k.
Proof.
  intros Hk Hi Hj Hk0.
  rewrite ValueAt_SetKeyAt by (done || apply Hi || apply Hj).
  case_decide as Hki.
  - subst k. apply GetItem_store_same; [done|done| |].
    + by apply length_KeyAt.
    + by apply length_ValueAt.
  - apply GetItem_store_other; [done|apply Hi|done|congruence].
Qed.

Lemma shift_right_loop_spec p index i :
  0 <= GetKeySize p -> 0 <= index <= i -> slot_in_buffer p i ->
  buffer_update p (shift_right_loop p index i) /\
  forall j, 0 <= j ->
    GetItem (shift_right_loop p index i) j =
      if decide (index < j <= i) then GetItem p (j - 1) else GetItem p j.
Proof.
  remember (Z.to_nat (i - index)) as n eqn:Hn.
  revert p i Hn. induction n as [|n IH]; intros p i Hn Hk Hi Hb;
    rewrite shift_right_loop_eq.
  - case_decide; [lia|]. split; [apply buffer_update_refl|].
    intros j Hj. case_decide; [lia|done].
  - case_decide; [|lia].
    set (p1 := SetValueAt _ i _).
    assert (Hu : buffer_update p p1) by apply buffer_update_store.
    pose proof (buffer_update_header _ _ Hu) as (_ & Hks & _).
    assert (Hb' : slot_in_buffer p (i - 1))
      by (apply (slot_in_buffer_le p i); [done|lia|done]).
    destruct (IH p1 (i - 1) ltac:(lia) ltac:(by rewrite Hks) ltac:(lia)
                 ltac:(by apply (buffer_update_slot p))) as [Hu1 Hget].
    split; [by eapply buffer_update_trans|].
    intros j Hj. rewrite Hget by done. unfold p1.
    destruct (decide (index < j <= i - 1));
      rewrite GetItem_copy_slot by (done || lia);
      repeat case_decide; try lia; try done. by subst j.
Qed.

Lemma shift_left_loop_spec p i :
  0 <= GetKeySize p -> 0 <= i ->
  GetSize p * pair_size p <= Z.of_nat (length (data_ p)) ->
  buffer_update p (shift_left_loop p i) /\
  forall j, 0 <= j ->
    GetItem (shift_left_loop p i) j =
      if decide (i <= j < GetSize p - 1) then GetItem p (j + 1) else GetItem p j.
Proof.
  remember (Z.to_nat (GetSize p - 1 - i)) as n eqn:Hn.
  revert p i Hn. induction n as [|n IH]; intros p i Hn Hk Hi Hb;
    rewrite shift_left_loop_eq.
  - case_decide; [lia|]. split; [apply buffer_update_refl|].
    intros j Hj. case_decide; [lia|done].
  - case_decide; [|lia].
    set (p1 := SetValueAt _ i _).
    assert (Hu : buffer_update p p1) by apply buffer_update_store.
    pose proof (buffer_update_header _ _ Hu) as (Hsz & Hks & _ & _ & _ & _ & _ & Hps & Hlen).
    destruct (IH p1 (i + 1) ltac:(lia) ltac:(by rewrite Hks) ltac:(lia)
                 ltac:(by rewrite Hsz, Hps, Hlen)) as [Hu1 Hget].
    split; [by eapply buffer_update_trans|].
    intros j Hj. rewrite Hget by done. rewrite Hsz. unfold p1.
    destruct (decide (i + 1 <= j < GetSize p - 1));
      rewrite GetItem_copy_slot
        by (done || lia || (apply (slot_in_buffer_lt p _ (GetSize p)); [done|lia|done]));
      repeat case_decide; try lia; try done. by subst j.
Qed.

(** *** The live pairs *)

Lemma lookup_pairs p (k : nat) :
  pairs p !! k =
    if decide (Z.of_nat k < GetSize p) then Some (GetItem p (Z.of_nat k)) else None.
Proof.
  unfold pairs. rewrite list_lookup_fmap. case_decide.
  - by rewrite lookup_seqZ_lt.
  - rewrite lookup_seqZ_ge by lia. done.
Qed.

Lemma length_pairs p : length (pairs p) = Z.to_nat (GetSize p).
Proof. unfold pairs. by rewrite length_fmap, length_seqZ. Qed.

Lemma lookup_pairs_Z p i :
  0 <= i < GetSize p -> pairs p !! Z.to_nat i = Some (GetItem p i).
Proof.
  intros Hi. rewrite lookup_pairs. case_decide; [|lia]. by rewrite Z2Nat.id by lia.
Qed.

Lemma sorted_KeyAt KM p i j :
  sorted KM (pairs p) -> 0 <= i < j -> j < GetSize p ->
  CompareKeys KM (KeyAt p i) (KeyAt p j) < 0.
Proof.
  intros Hs Hi Hj.
  apply (sorted_lookup KM (pairs p) (Z.to_nat i) (Z.to_nat j) (GetItem p i) (GetItem p j));
    [done|apply lookup_pairs_Z; lia|apply lookup_pairs_Z; lia|lia].
Qed.

(** *** The binary search *)

Lemma quot2_bounds d : 0 <= d -> 0 <= d `quot` 2 <= d.
Proof.
  intros Hd. pose proof (Z.quot_pos d 2).
  pose proof (Z.quot_lt_upper_bound d 2 (d + 1)). lia.
Qed.

Lemma KeyIndex_loop_spec KM p key left_ right_ :
  left_ <= right_ + 1 ->
  (forall i j, left_ <= i <= j -> j <= right_ ->
     CompareKeys KM key (KeyAt p i) <= 0 -> CompareKeys KM key (KeyAt p j) <= 0) ->
  left_ <= KeyIndex_loop KM p key left_ right_ <= right_ + 1 /\
  (forall j, left_ <= j < KeyIndex_loop KM p key left_ right_ ->
     CompareKeys KM key (KeyAt p j) > 0) /\
  (forall j, KeyIndex_loop KM p key left_ right_ <= j <= right_ ->
     CompareKeys KM key (KeyAt p j) <= 0).
Proof.
  remember (Z.to_nat (right_ + 1 - left_)) as n eqn:Hn.
  revert left_ right_ Hn.
  induction n as [n IH] using lt_wf_ind; intros left_ right_ Hn Hlr Hmono.
  rewrite KeyIndex_loop_eq. case_decide as Hle; [|split; [lia|split; intros; lia]].
  cbv zeta. pose proof (quot2_bounds (right_ - left_) ltac:(lia)) as Hq.
  set (mid := left_ + (right_ - left_) `quot` 2) in *.
  case_decide as Hc.
  - destruct (IH (Z.to_nat (mid - 1 + 1 - left_)) ltac:(lia) left_ (mid - 1)
                 eq_refl ltac:(lia)) as (Hr & Hlo & Hhi).
    { intros i j Hi Hj. apply Hmono; lia. }
    split; [lia|]. split; [done|].
    intros j Hj. destruct (decide (j <= mid - 1)); [apply Hhi; lia|].
    apply (Hmono mid j); [lia|lia|done].
  - destruct (IH (Z.to_nat (right_ + 1 - (mid + 1))) ltac:(lia) (mid + 1) right_
                 eq_refl ltac:(lia)) as (Hr & Hlo & Hhi).
    { intros i j Hi Hj. apply Hmono; lia. }
    split; [lia|]. split; [|done].
    intros j Hj. destruct (decide (mid + 1 <= j)); [apply Hlo; lia|].
    destruct (decide (CompareKeys KM key (KeyAt p j) <= 0)) as [Hjc|Hjc]; [|lia].
    exfalso. apply Hc. apply (Hmono j mid); [lia|lia|done].
Qed.

(** The result is an index of the page or its size, whatever the content. *)
Lemma KeyIndex_loop_range KM p key left_ right_ :
  left_ <= right_ + 1 ->
  left_ <= KeyIndex_loop KM p key left_ right_ <= right_ + 1.
Proof.
  remember (Z.to_nat (right_ + 1 - left_)) as n eqn:Hn.
  revert left_ right_ Hn.
  induction n as [n IH] using lt_wf_ind; intros left_ right_ Hn Hlr.
  rewrite KeyIndex_loop_eq. case_decide as Hle; [|lia].
  cbv zeta. pose proof (quot2_bounds (right_ - left_) ltac:(lia)) as Hq.
  set (mid := left_ + (right_ - left_) `quot` 2) in *.
  case_decide.
  - pose proof (IH (Z.to_nat (mid - 1 + 1 - left_)) ltac:(lia) left_ (mid - 1)
                   eq_refl ltac:(lia)). lia.
  - pose proof (IH (Z.to_nat (right_ + 1 - (mid + 1))) ltac:(lia) (mid + 1) right_
                   eq_refl ltac:(lia)). lia.
Qed.

Lemma KeyIndex_range p key KM :
  0 <= GetSize p -> 0 <= KeyIndex p key KM <= GetSize p.
Proof.
  intros Hs. unfold KeyIndex.
  pose proof (KeyIndex_loop_range KM p key 0 (GetSize p - 1) ltac:(lia)). lia.
Qed.

(** On a page whose keys never descend, [KeyIndex] splits the slots into the
    keys before the searched key and the keys at or after it. *)
Lemma KeyIndex_partition KM p key :
  key_order KM -> 0 <= GetSize p ->
  (forall i j, 0 <= i <= j -> j < GetSize p ->
     CompareKeys KM (KeyAt p i) (KeyAt p j) <= 0) ->
  (forall j, 0 <= j < KeyIndex p key KM -> CompareKeys KM key (KeyAt p j) > 0) /\
  (forall j, KeyIndex p key KM <= j < GetSize p -> CompareKeys KM key (KeyAt p j) <= 0).
Proof.
  intros HKM Hs Hasc. unfold KeyIndex.
  destruct (KeyIndex_loop_spec KM p key 0 (GetSize p - 1) ltac:(lia)) as (_ & Hlo & Hhi).
  { intros i j Hi Hj Hc. eapply (cmp_le_trans KM HKM); [exact Hc|].
    apply Hasc; lia. }
  split; [done|]. intros j Hj. apply Hhi. lia.
Qed.

Lemma sorted_ascending KM p :
  key_order KM -> sorted KM (pairs p) ->
  forall i j, 0 <= i <= j -> j < GetSize p ->
    CompareKeys KM (KeyAt p i) (KeyAt p j) <= 0.
Proof.
  intros HKM Hs i j Hi Hj. destruct (decide (i = j)) as [->|Hne].
  - rewrite (cmp_refl KM HKM). lia.
  - pose proof (sorted_KeyAt KM p i j Hs ltac:(lia) Hj). lia.
Qed.

(** *** The operations on the list of live pairs *)

Lemma lookup_insert_at {A} (l : list A) (i : nat) (x : A) (k : nat) :
  (i <= length l)%nat ->
  (take i l ++ x :: drop i l) !! k =
    if decide (k < i)%nat then l !! k
    else if decide (k = i) then Some x else l !! (k - 1)%nat.
Proof.
  intros Hi. case_decide as Hk.
  - rewrite lookup_app_l by (rewrite length_take; lia). by apply lookup_take_lt.
  - rewrite lookup_app_r by (rewrite length_take; lia).
    rewrite length_take, Nat.min_l by lia.
    case_decide as Hki.
    + subst k. by rewrite Nat.sub_diag.
    + destruct (k - i)%nat as [|m] eqn:Hm; [lia|]. simpl.
      rewrite lookup_drop. f_equal. lia.
Qed.

Lemma resized_IncreaseSize p q amount :
  buffer_update p q -> resized p (IncreaseSize q amount) (GetSize p + amount).
Proof.
  intros [Hq Hl]. split; [|done].
  rewrite Hq at 1. done.
Qed.

Lemma resized_header p q n :
  resized p q n ->
  GetSize q = n /\ GetKeySize q = GetKeySize p /\ GetMaxSize q = GetMaxSize p /\
  GetNextPageId q = GetNextPageId p /\ GetPageId q = GetPageId p /\
  GetParentPageId q = GetParentPageId p /\ GetPageType q = GetPageType p /\
  pair_size q = pair_size p.
Proof. intros [-> _]. by repeat split. Qed.

Lemma resized_wf p q n :
  resized p q n -> page_wf p -> 0 <= n <= GetMaxSize p -> page_wf q.
Proof.
  intros Hr [Hk Hs Hb] Hn.
  pose proof (resized_header _ _ _ Hr) as (Hsz & Hks & Hms & _ & _ & _ & _ & Hps).
  destruct Hr as [_ Hl].
  split; rewrite ?Hsz, ?Hks, ?Hms, ?Hps, ?Hl; done.
Qed.

Lemma insert_at_spec p index key value :
  page_wf p -> GetSize p < GetMaxSize p -> 0 <= index <= GetSize p ->
  length key = Z.to_nat (GetKeySize p) -> length value = sizeof_RowId ->
  resized p (insert_at p index key value) (GetSize p + 1) /\
  pairs (insert_at p index key value) =
    take (Z.to_nat index) (pairs p) ++ (key, value) :: drop (Z.to_nat index) (pairs p).
Proof.
  intros [Hk Hs Hb] Hlt Hidx Hkey Hval. unfold insert_at.
  assert (Hslot : slot_in_buffer p (GetSize p))
    by (apply (slot_in_buffer_lt p _ (GetMaxSize p)); [done|lia|done]).
  destruct (shift_right_loop_spec p index (GetSize p) Hk Hidx Hslot) as [Hu1 Hget1].
  set (q1 := shift_right_loop p index (GetSize p)) in *.
  pose proof (buffer_update_header _ _ Hu1) as (Hsz1 & Hks1 & _).
  set (q2 := SetValueAt (SetKeyAt q1 index key) index value).
  assert (Hu : buffer_update p q2).
  { eapply buffer_update_trans; [exact Hu1|apply buffer_update_store]. }
  split; [by apply resized_IncreaseSize|].
  pose proof (buffer_update_header _ _ Hu) as (Hsz & _).
  apply list_eq. intros k.
  rewrite lookup_pairs, lookup_insert_at by (rewrite length_pairs; lia).
  change (GetSize (IncreaseSize q2 1)) with (GetSize q2 + 1).
  change (GetItem (IncreaseSize q2 1) (Z.of_nat k)) with (GetItem q2 (Z.of_nat k)).
  rewrite Hsz, !lookup_pairs.
  destruct (decide (Z.of_nat k = index)) as [Hki|Hki].
  - rewrite Hki. unfold q2. rewrite GetItem_store_same.
    + repeat case_decide; try lia; done.
    + by rewrite Hks1.
    + apply (buffer_update_slot p); [done|].
      by apply (slot_in_buffer_le p (GetSize p)).
    + by rewrite Hks1.
    + done.
  - unfold q2. rewrite GetItem_store_other by (rewrite ?Hks1; lia).
    rewrite Hget1 by lia.
    repeat case_decide; try lia; try done.
    do 2 f_equal. lia.
Qed.

Lemma remove_at_spec p index :
  page_wf p -> 0 <= index < GetSize p ->
  resized p (remove_at p index) (GetSize p - 1) /\
  pairs (remove_at p index) = delete (Z.to_nat index) (pairs p).
Proof.
  intros [Hk Hs Hb] Hidx. unfold remove_at.
  assert (Hroom : GetSize p * pair_size p <= Z.of_nat (length (data_ p))).
  { pose proof (pair_size_nonneg p Hk). nia. }
  destruct (shift_left_loop_spec p index Hk ltac:(lia) Hroom) as [Hu Hget].
  set (q := shift_left_loop p index) in *.
  split; [by apply (resized_IncreaseSize p q (-1))|].
  pose proof (buffer_update_header _ _ Hu) as (Hsz & _).
  apply list_eq. intros k.
  rewrite lookup_pairs.
  change (GetSize (IncreaseSize q (-1))) with (GetSize q + -1).
  change (GetItem (IncreaseSize q (-1)) (Z.of_nat k)) with (GetItem q (Z.of_nat k)).
  rewrite Hsz, Hget by lia.
  destruct (decide (k < Z.to_nat index)%nat).
  - rewrite list_lookup_delete_lt by done. rewrite lookup_pairs.
    repeat case_decide; try lia; done.
  - rewrite list_lookup_delete_ge by lia. rewrite lookup_pairs.
    repeat case_decide; try lia; try done.
    do 2 f_equal. lia.
Qed.

Lemma pairs_SetSize p n :
  0 <= n <= GetSize p -> pairs (SetSize p n) = take (Z.to_nat n) (pairs p).
Proof.
  intros Hn. apply list_eq. intros k. rewrite lookup_pairs.
  change (GetSize (SetSize p n)) with n.
  change (GetItem (SetSize p n) (Z.of_nat k)) with (GetItem p (Z.of_nat k)).
  case_decide.
  - rewrite lookup_take_lt by lia. rewrite lookup_pairs. case_decide; [done|lia].
  - rewrite lookup_take_ge by lia. done.
Qed.

Lemma lookup_slots p s n (k : nat) :
  (GetItem p <$> seqZ s n) !! k =
    if decide (Z.of_nat k < n) then Some (GetItem p (s + Z.of_nat k)) else None.
Proof.
  rewrite list_lookup_fmap. case_decide.
  - by rewrite lookup_seqZ_lt.
  - rewrite lookup_seqZ_ge by lia. done.
Qed.

Lemma drop_pairs p n :
  0 <= n <= GetSize p ->
  drop (Z.to_nat n) (pairs p) = GetItem p <$> seqZ n (GetSize p - n).
Proof.
  intros Hn. apply list_eq. intros k.
  rewrite lookup_drop, lookup_pairs, lookup_slots.
  repeat case_decide; try lia; try done. do 2 f_equal. lia.
Qed.

(** [CopyNFrom] with the address of slot [s] of a page [p] of the same key
    size as source: the [n] pairs of [p] from slot [s] on are appended. *)
Lemma CopyNFrom_spec p r s n :
  GetKeySize r = GetKeySize p -> 0 <= GetKeySize p -> 0 <= GetSize r ->
  0 <= s -> 0 <= n ->
  (s + n) * pair_size p <= Z.of_nat (length (data_ p)) ->
  (GetSize r + n) * pair_size r <= Z.of_nat (length (data_ r)) ->
  resized r (CopyNFrom r (PairPtrAt p s) n) (GetSize r + n) /\
  pairs (CopyNFrom r (PairPtrAt p s) n) = pairs r ++ (GetItem p <$> seqZ s n).
Proof.
  intros Hks Hk Hsr Hs Hn Hbp Hbr. unfold CopyNFrom.
  assert (Hps : pair_size r = pair_size p) by (unfold pair_size; by rewrite Hks).
  pose proof (pair_size_nonneg p Hk) as Hps0.
  set (bs := take (Z.to_nat (n * pair_size r)) (PairPtrAt p s)).
  set (off := PairPtrAt_off r (GetSize r)).
  set (q := with_data r (Mem.write (data_ r) off bs)).
  assert (Hu : buffer_update r q) by (split; [done|apply length_mem_write]).
  split; [by apply resized_IncreaseSize|].
  assert (Hsn : 0 <= s * pair_size p) by (apply slot_nonneg; lia).
  assert (Hnn : 0 <= n * pair_size p) by (apply slot_nonneg; lia).
  assert (Hrn : 0 <= GetSize r * pair_size p) by (apply slot_nonneg; lia).
  assert (Hoff : off = Z.to_nat (GetSize r * pair_size p)).
  { unfold off, PairPtrAt_off, key_off. rewrite Hps. f_equal. lia. }
  assert (Hbs : length bs = Z.to_nat (n * pair_size p)).
  { unfold bs, PairPtrAt, PairPtrAt_off, key_off.
    rewrite length_take, length_drop, Hps. lia. }
  apply list_eq. intros k. rewrite lookup_pairs.
  change (GetSize (IncreaseSize q n)) with (GetSize r + n).
  change (GetItem (IncreaseSize q n) (Z.of_nat k)) with (GetItem q (Z.of_nat k)).
  destruct (decide (Z.of_nat k < GetSize r)) as [Hlt|Hge].
  - rewrite lookup_app_l by (rewrite length_pairs; lia).
    rewrite lookup_pairs. repeat case_decide; try lia. f_equal.
    assert (Hkn : 0 <= Z.of_nat k * pair_size p) by (apply slot_nonneg; lia).
    pose proof (slot_apart (pair_size p) (Z.of_nat k) (GetSize r) Hps0 Hlt).
    unfold GetItem, KeyAt, ValueAt, q. cbn [data_ with_data].
    change (GetKeySize (with_data r ?d)) with (GetKeySize r).
    change (pair_size (with_data r ?d)) with (pair_size r).
    change (val_off (with_data r ?d)) with (val_off r).
    rewrite !mem_read_write_other; [done|left..];
      rewrite Hoff, Hps; unfold val_off, key_off, pair_size in *; lia.
  - rewrite lookup_app_r by (rewrite length_pairs; lia).
    rewrite length_pairs, lookup_slots.
    destruct (decide (Z.of_nat k < GetSize r + n)) as [Hin|Hout].
    2:{ case_decide; [lia|done]. }
    case_decide; [|lia]. f_equal.
    set (m := Z.of_nat (k - Z.to_nat (GetSize r))).
    assert (Hm : Z.of_nat k = GetSize r + m) by (unfold m; lia).
    assert (Hm0 : 0 <= m < n) by lia.
    assert (Hmn : 0 <= m * pair_size p) by (apply slot_nonneg; lia).
    pose proof (slot_apart (pair_size p) m n Hps0 ltac:(lia)).
    rewrite Hm.
    unfold GetItem, KeyAt, ValueAt, q. cbn [data_ with_data].
    change (GetKeySize (with_data r ?d)) with (GetKeySize r).
    change (pair_size (with_data r ?d)) with (pair_size r).
    change (val_off (with_data r ?d)) with (val_off r).
    rewrite Hps, Hks. unfold val_off, key_off. rewrite Hks.
    replace (Z.to_nat ((GetSize r + m) * pair_size p + 0))
      with (off + Z.to_nat (m * pair_size p))%nat by lia.
    replace (Z.to_nat ((GetSize r + m) * pair_size p + GetKeySize p))
      with (off + Z.to_nat (m * pair_size p + GetKeySize p))%nat by lia.
    assert (Hfit : (off + length bs <= length (data_ r))%nat)
      by (rewrite Hoff, Hbs; rewrite Hps in Hbr; lia).
    rewrite !mem_read_write_inside
      by (done || (rewrite Hbs; unfold pair_size in *; lia)).
    unfold bs, PairPtrAt, PairPtrAt_off, key_off. rewrite Hps.
    rewrite !mem_read_take by (unfold pair_size in *; lia).
    rewrite !mem_read_drop. do 2 f_equal; lia.
Qed.

Lemma CopyLastFrom_insert_at p key value :
  CopyLastFrom p key value = insert_at p (GetSize p) key value.
Proof.
  unfold CopyLastFrom, insert_at. rewrite shift_right_loop_eq.
  case_decide; [lia|done].
Qed.

Lemma CopyLastFrom_spec p key value :
  page_wf p -> insert_fits p key value ->
  resized p (CopyLastFrom p key value) (GetSize p + 1) /\
  pairs (CopyLastFrom p key value) = pairs p ++ [(key, value)].
Proof.
  intros Hwf (Hlt & Hkey & Hval). rewrite CopyLastFrom_insert_at.
  pose proof (wf_size p Hwf) as Hs.
  destruct (insert_at_spec p (GetSize p) key value Hwf Hlt ltac:(lia) Hkey Hval)
    as [Hr Hp].
  split; [done|]. rewrite Hp.
  rewrite <- length_pairs, firstn_all, drop_all. done.
Qed.

Lemma CopyFirstFrom_spec p key value :
  page_wf p -> insert_fits p key value ->
  resized p (CopyFirstFrom p key value) (GetSize p + 1) /\
  pairs (CopyFirstFrom p key value) = (key, value) :: pairs p.
Proof.
  intros Hwf (Hlt & Hkey & Hval).
  pose proof (wf_size p Hwf) as Hs.
  apply (insert_at_spec p 0 key value Hwf Hlt ltac:(lia) Hkey Hval).
Qed.

(** *** Searching a sorted page *)

Lemma KeyIndex_sorted KM p key :
  key_order KM -> 0 <= GetSize p -> sorted KM (pairs p) ->
  (forall j, 0 <= j < KeyIndex p key KM -> CompareKeys KM key (KeyAt p j) > 0) /\
  (forall j, KeyIndex p key KM <= j < GetSize p -> CompareKeys KM key (KeyAt p j) <= 0).
Proof.
  intros HKM Hs Hsort. apply KeyIndex_partition; [done|done|].
  by apply sorted_ascending.
Qed.

(** On a sorted page the search stops on the slot of the key, if the page has
    it. *)
Lemma KeyIndex_found KM p key i :
  key_order KM -> sorted KM (pairs p) ->
  0 <= i < GetSize p -> CompareKeys KM key (KeyAt p i) = 0 ->
  KeyIndex p key KM = i.
Proof.
  intros HKM Hsort Hi Heq.
  destruct (KeyIndex_sorted KM p key HKM ltac:(lia) Hsort) as [Hlo Hhi].
  pose proof (KeyIndex_range p key KM ltac:(lia)) as Hr.
  destruct (Z.lt_trichotomy (KeyIndex p key KM) i) as [Hlt|[Heq'|Hgt]]; [|done|].
  - exfalso.
    assert (Hle : CompareKeys KM key (KeyAt p (KeyIndex p key KM)) <= 0)
      by (apply Hhi; lia).
    assert (Hlt' : CompareKeys KM (KeyAt p (KeyIndex p key KM)) (KeyAt p i) < 0)
      by (apply sorted_KeyAt; [done|lia|lia]).
    pose proof (cmp_le_lt_trans KM HKM _ _ _ Hle Hlt'). lia.
  - exfalso. pose proof (Hlo i ltac:(lia)). lia.
Qed.

Lemma has_key_slot KM p key :
  has_key KM p key <->
  exists i, 0 <= i < GetSize p /\ CompareKeys KM key (KeyAt p i) = 0.
Proof.
  unfold has_key. rewrite Exists_exists. split.
  - intros (kv & Hin & Heq).
    apply list_elem_of_lookup_1 in Hin as [k Hk].
    rewrite lookup_pairs in Hk. case_decide; [|done]. injection Hk as <-.
    exists (Z.of_nat k). split; [lia|done].
  - intros (i & Hi & Heq). exists (GetItem p i). split; [|done].
    eapply list_elem_of_lookup_2. apply lookup_pairs_Z. done.
Qed.

Lemma KeyIndex_absent KM p key :
  ~ has_key KM p key -> 0 <= GetSize p ->
  ~ (KeyIndex p key KM < GetSize p /\
     CompareKeys KM key (KeyAt p (KeyIndex p key KM)) = 0).
Proof.
  intros Habs Hs [Hlt Heq]. apply Habs, has_key_slot. exists (KeyIndex p key KM).
  pose proof (KeyIndex_range p key KM Hs). split; [lia|done].
Qed.

(** *** Sorted lists under insertion and removal at a position *)

Lemma insert_sorted_take_drop KM kv l (i : nat) :
  (i <= length l)%nat ->
  (forall j x, (j < i)%nat -> l !! j = Some x -> CompareKeys KM kv.1 x.1 > 0) ->
  (forall x, l !! i = Some x -> CompareKeys KM kv.1 x.1 <= 0) ->
  insert_sorted KM kv l = take i l ++ kv :: drop i l.
Proof.
  revert i. induction l as [|x l IH]; intros i Hi Hlo Hhi.
  - simpl in Hi. by replace i with 0%nat by lia.
  - destruct i as [|i]; simpl.
    + pose proof (Hhi x eq_refl). case_decide; [done|lia].
    + pose proof (Hlo 0%nat x ltac:(lia) eq_refl). case_decide; [lia|].
      f_equal. apply IH.
      * simpl in Hi. lia.
      * intros j y Hj Hy. apply (Hlo (S j)); [lia|done].
      * intros y Hy. by apply Hhi.
Qed.

Lemma sorted_insert_at KM l (i : nat) kv :
  sorted KM l -> (i <= length l)%nat ->
  (forall j x, (j < i)%nat -> l !! j = Some x -> key_lt KM x kv) ->
  (forall j x, (i <= j)%nat -> l !! j = Some x -> key_lt KM kv x) ->
  sorted KM (take i l ++ kv :: drop i l).
Proof.
  intros Hs Hi Hlo Hhi. apply sorted_of_lookup. intros a b x y Ha Hb Hab.
  rewrite lookup_insert_at in Ha, Hb by done.
  repeat case_decide; simplify_eq/=; try lia.
  - by apply (sorted_lookup KM l a b).
  - by apply (Hlo a).
  - apply (sorted_lookup KM l a (b - 1)); [done|done|done|lia].
  - apply (Hhi (b - 1)%nat); [lia|done].
  - apply (sorted_lookup KM l (a - 1) (b - 1)); [done|done|done|lia].
Qed.

Lemma sorted_delete KM l (i : nat) : sorted KM l -> sorted KM (delete i l).
Proof.
  intros Hs. apply sorted_of_lookup. intros a b x y Ha Hb Hab.
  rewrite list_lookup_delete in Ha, Hb.
  repeat case_decide; try lia.
  - by apply (sorted_lookup KM l a b).
  - apply (sorted_lookup KM l a (S b)); [done|done|done|lia].
  - apply (sorted_lookup KM l (S a) (S b)); [done|done|done|lia].
Qed.

Lemma sorted_take KM l (n : nat) : sorted KM l -> sorted KM (take n l).
Proof.
  intros Hs. rewrite <- (take_drop n l) in Hs. by apply StronglySorted_app_1_l in Hs.
Qed.

Lemma sorted_take_drop_lt KM l (n : nat) a b :
  sorted KM l -> a ∈ take n l -> b ∈ drop n l -> key_lt KM a b.
Proof.
  intros Hs Ha Hb. rewrite <- (take_drop n l) in Hs.
  by apply (StronglySorted_app_1_elem_of _ _ _ a b) in Hs.
Qed.

(** The key of a live pair is the key of its slot. *)
Lemma lookup_pairs_Some p (k : nat) x :
  pairs p !! k = Some x -> Z.of_nat k < GetSize p /\ x = GetItem p (Z.of_nat k).
Proof. rewrite lookup_pairs. case_decide; naive_solver. Qed.

(** *** Insert and RemoveAndDeleteRecord on a sorted page *)

Lemma Insert_insert_at p key value KM :
  Insert p key value KM =
    (insert_at p (KeyIndex p key KM) key value,
     GetSize (insert_at p (KeyIndex p key KM) key value)).
Proof. reflexivity. Qed.

Lemma Insert_spec KM p key value :
  key_order KM -> page_wf p -> sorted KM (pairs p) -> insert_fits p key value ->
  resized p (Insert p key value KM).1 (GetSize p + 1) /\
  (Insert p key value KM).2 = GetSize p + 1 /\
  pairs (Insert p key value KM).1 =
    take (Z.to_nat (KeyIndex p key KM)) (pairs p)
      ++ (key, value) :: drop (Z.to_nat (KeyIndex p key KM)) (pairs p) /\
  pairs (Insert p key value KM).1 = insert_sorted KM (key, value) (pairs p) /\
  (~ has_key KM p key -> sorted KM (pairs (Insert p key value KM).1)) /\
  page_wf (Insert p key value KM).1.
Proof.
  intros HKM Hwf Hsort (Hlt & Hkey & Hval).
  pose proof (wf_size p Hwf) as Hs.
  pose proof (KeyIndex_range p key KM ltac:(lia)) as Hidx.
  destruct (KeyIndex_sorted KM p key HKM ltac:(lia) Hsort) as [Hlo Hhi].
  rewrite Insert_insert_at. cbn [fst snd].
  destruct (insert_at_spec p (KeyIndex p key KM) key value Hwf Hlt Hidx Hkey Hval)
    as [Hr Hp].
  pose proof (resized_header _ _ _ Hr) as (Hsz & _).
  split; [done|]. split; [done|]. split; [done|].
  split; [|split].
  - rewrite Hp. symmetry. apply insert_sorted_take_drop.
    + rewrite length_pairs. lia.
    + intros j x Hj Hx. apply lookup_pairs_Some in Hx as [Hjs ->].
      apply Hlo. lia.
    + intros x Hx. apply lookup_pairs_Some in Hx as [Hjs ->].
      cbn [fst GetItem]. rewrite Z2Nat.id by lia. apply Hhi. lia.
  - intros Habs. rewrite Hp. apply sorted_insert_at; [done|rewrite length_pairs; lia|..].
    + intros j x Hj Hx. apply lookup_pairs_Some in Hx as [Hjs ->].
      unfold key_lt. cbn [fst GetItem]. apply (cmp_flip_lt KM HKM).
      pose proof (Hlo (Z.of_nat j) ltac:(lia)). lia.
    + intros j x Hj Hx. apply lookup_pairs_Some in Hx as [Hjs ->].
      unfold key_lt. cbn [fst GetItem].
      pose proof (Hhi (Z.of_nat j) ltac:(lia)).
      destruct (decide (CompareKeys KM key (KeyAt p (Z.of_nat j)) = 0)) as [He|]; [|lia].
      exfalso. apply Habs, has_key_slot. exists (Z.of_nat j). split; [lia|done].
  - apply (resized_wf p _ _ Hr Hwf). lia.
Qed.

Lemma Remove_found KM p key i :
  key_order KM -> page_wf p -> sorted KM (pairs p) ->
  0 <= i < GetSize p -> CompareKeys KM key (KeyAt p i) = 0 ->
  RemoveAndDeleteRecord p key KM = (remove_at p i, GetSize p - 1) /\
  resized p (remove_at p i) (GetSize p - 1) /\
  pairs (remove_at p i) = delete (Z.to_nat i) (pairs p).
Proof.
  intros HKM Hwf Hsort Hi Heq.
  pose proof (KeyIndex_found KM p key i HKM Hsort Hi Heq) as Hidx.
  destruct (remove_at_spec p i Hwf Hi) as [Hr Hp].
  pose proof (resized_header _ _ _ Hr) as (Hsz & _).
  split; [|done]. unfold RemoveAndDeleteRecord. rewrite Hidx.
  case_decide as Hc; [|exfalso; apply Hc; split; [lia|done]].
  cbv zeta. fold (remove_at p i). by rewrite Hsz.
Qed.

Lemma Remove_absent KM p key :
  0 <= GetSize p -> ~ has_key KM p key ->
  RemoveAndDeleteRecord p key KM = (p, GetSize p).
Proof.
  intros Hs Habs. unfold RemoveAndDeleteRecord.
  pose proof (KeyIndex_absent KM p key Habs Hs). by case_decide.
Qed.

(** The invariant of the page under its two updates. *)
Lemma Remove_preserves KM p key :
  key_order KM -> page_wf p -> sorted KM (pairs p) ->
  page_wf (RemoveAndDeleteRecord p key KM).1 /\
  sorted KM (pairs (RemoveAndDeleteRecord p key KM).1).
Proof.
  intros HKM Hwf Hsort. pose proof (wf_size p Hwf) as Hs.
  destruct (decide (has_key KM p key)) as [Hin|Habs].
  - apply has_key_slot in Hin as (i & Hi & Heq).
    destruct (Remove_found KM p key i HKM Hwf Hsort Hi Heq) as (-> & Hr & Hp).
    cbn [fst]. split.
    + apply (resized_wf p _ _ Hr Hwf). lia.
    + rewrite Hp. by apply sorted_delete.
  - rewrite Remove_absent by (done || lia). done.
Qed.

(** *** A freshly initialized page *)

Lemma pairs_empty p : GetSize p = 0 -> pairs p = [].
Proof. intros H. unfold pairs. by rewrite H. Qed.

Lemma Init_wf raw page_id parent_id key_size max_size :
  0 <= key_size -> 0 <= max_size ->
  max_size * (key_size + Z.of_nat sizeof_RowId) <= Z.of_nat (length (data_ raw)) ->
  page_wf (Init raw page_id parent_id key_size max_size).
Proof. intros Hk Hm Hb. split; simpl; unfold pair_size; simpl; lia. Qed.

(** *** Sequences of updates *)

Lemma within_capacity_take KM ops : forall p n,
  within_capacity KM p ops -> within_capacity KM p (take n ops).
Proof.
  induction ops as [|o ops IH]; intros p n H; [by destruct n|].
  destruct n as [|n]; [done|]. destruct o; simpl in *.
  - destruct H as [Hf H]. split; [done|]. by apply IH.
  - by apply IH.
Qed.

Lemma fresh_keys_take KM ops : forall p n,
  fresh_keys KM p ops -> fresh_keys KM p (take n ops).
Proof.
  induction ops as [|o ops IH]; intros p n H; [by destruct n|].
  destruct n as [|n]; [done|]. destruct o; simpl in *.
  - destruct H as [Hf H]. split; [done|]. by apply IH.
  - by apply IH.
Qed.

Lemma run_invariant KM ops : forall p,
  key_order KM -> page_wf p -> sorted KM (pairs p) ->
  within_capacity KM p ops -> fresh_keys KM p ops ->
  page_wf (run KM p ops) /\ sorted KM (pairs (run KM p ops)).
Proof.
  induction ops as [|o ops IH]; intros p HKM Hwf Hsort Hcap Hfresh; [done|].
  destruct o as [key value|key]; simpl in *.
  - destruct Hcap as [Hfit Hcap], Hfresh as [Habs Hfresh].
    destruct (Insert_spec KM p key value HKM Hwf Hsort Hfit)
      as (_ & _ & _ & _ & Hs' & Hwf').
    apply IH; auto.
  - destruct (Remove_preserves KM p key HKM Hwf Hsort) as [Hwf' Hs'].
    apply IH; auto.
Qed.

(** C1, amended: from a freshly initialized page, after every prefix of a
    sequence of [Insert] and [RemoveAndDeleteRecord] calls in which each
    [Insert] finds a free slot and is given a key that the page does not hold,
    the pairs are strictly ascending in comparator order and no two of them
    have equal keys; and one such [Insert] keeps a sorted page sorted. *)
Theorem sortedness_invariant KM raw page_id parent_id key_size max_size ops :
  key_order KM -> 0 <= key_size -> 0 <= max_size ->
  max_size * (key_size + Z.of_nat sizeof_RowId) <= Z.of_nat (length (data_ raw)) ->
  within_capacity KM (Init raw page_id parent_id key_size max_size) ops ->
  fresh_keys KM (Init raw page_id parent_id key_size max_size) ops ->
  (forall n,
     sorted KM (pairs (run KM (Init raw page_id parent_id key_size max_size) (take n ops)))) /\
  (forall n i j a b,
     pairs (run KM (Init raw page_id parent_id key_size max_size) (take n ops)) !! i = Some a ->
     pairs (run KM (Init raw page_id parent_id key_size max_size) (take n ops)) !! j = Some b ->
     i <> j -> CompareKeys KM a.1 b.1 <> 0) /\
  (forall p key value,
     page_wf p -> sorted KM (pairs p) -> insert_fits p key value -> ~ has_key KM p key ->
     sorted KM (pairs (Insert p key value KM).1)).
Proof.
  intros HKM Hk Hm Hb Hcap Hfresh.
  assert (Hinv : forall n,
    sorted KM (pairs (run KM (Init raw page_id parent_id key_size max_size) (take n ops)))).
  { intros n. apply run_invariant; [done| | | |].
    - by apply Init_wf.
    - rewrite pairs_empty by done. constructor.
    - by apply within_capacity_take.
    - by apply fresh_keys_take. }
  split; [done|]. split.
  - intros n i j a b Hi Hj Hne.
    by apply (sorted_no_duplicates KM HKM _ i j a b (Hinv n)).
  - intros p key value Hwf Hsort Hfit Habs.
    by apply (Insert_spec KM p key value HKM Hwf Hsort Hfit).
Qed.

(** C2: on a page whose pairs are sorted, [KeyIndex] returns an index [i] of
    [0 .. size] such that the pair at [i], if there is one, has a key at or
    after the searched key, and no smaller index has that property; a slot
    whose key equals the searched key is not before [i]; on an empty page the
    result is [0]. *)
Theorem KeyIndex_leftmost KM p key :
  key_order KM -> 0 <= GetSize p -> sorted KM (pairs p) ->
  0 <= KeyIndex p key KM <= GetSize p /\
  (KeyIndex p key KM < GetSize p ->
     CompareKeys KM key (KeyAt p (KeyIndex p key KM)) <= 0) /\
  (forall j, 0 <= j <= GetSize p ->
     (j < GetSize p -> CompareKeys KM key (KeyAt p j) <= 0) ->
     KeyIndex p key KM <= j) /\
  (forall j, 0 <= j < GetSize p -> CompareKeys KM key (KeyAt p j) = 0 ->
     KeyIndex p key KM <= j) /\
  (GetSize p = 0 -> KeyIndex p key KM = 0).
Proof.
  intros HKM Hs Hsort.
  pose proof (KeyIndex_range p key KM Hs) as Hr.
  destruct (KeyIndex_sorted KM p key HKM Hs Hsort) as [Hlo Hhi].
  split; [done|]. split; [|split; [|split]].
  - intros Hlt. apply Hhi. lia.
  - intros j Hj Hge. destruct (decide (KeyIndex p key KM <= j)); [done|].
    pose proof (Hlo j ltac:(lia)). pose proof (Hge ltac:(lia)). lia.
  - intros j Hj Heq. destruct (decide (KeyIndex p key KM <= j)); [done|].
    pose proof (Hlo j ltac:(lia)). lia.
  - lia.
Qed.

(** C3: on a sorted page with a free slot, [Insert] of a key that the page
    does not hold yields the sorted insertion of the pair into the pairs of
    the page, that is the pairs before [KeyIndex(key)], the new pair, and the
    pairs from that index on in their order; it returns the former size plus
    one, which is the new size. *)
Theorem Insert_sorted_insertion KM p key value :
  key_order KM -> page_wf p -> sorted KM (pairs p) ->
  insert_fits p key value -> ~ has_key KM p key ->
  pairs (Insert p key value KM).1 = insert_sorted KM (key, value) (pairs p) /\
  pairs (Insert p key value KM).1 =
    take (Z.to_nat (KeyIndex p key KM)) (pairs p)
      ++ (key, value) :: drop (Z.to_nat (KeyIndex p key KM)) (pairs p) /\
  sorted KM (pairs (Insert p key value KM).1) /\
  (Insert p key value KM).2 = GetSize p + 1 /\
  GetSize (Insert p key value KM).1 = GetSize p + 1.
Proof.
  intros HKM Hwf Hsort Hfit Habs.
  destruct (Insert_spec KM p key value HKM Hwf Hsort Hfit)
    as (Hr & Hret & Hp & Hins & Hs' & _).
  pose proof (resized_header _ _ _ Hr) as (Hsz & _).
  auto.
Qed.

Lemma Lookup_found KM p key value i :
  key_order KM -> sorted KM (pairs p) ->
  0 <= i < GetSize p -> CompareKeys KM key (KeyAt p i) = 0 ->
  Lookup p key value KM = (true, ValueAt p i, p).
Proof.
  intros HKM Hsort Hi Heq. unfold Lookup.
  rewrite (KeyIndex_found KM p key i HKM Hsort Hi Heq).
  case_decide as Hc; [done|]. exfalso. apply Hc. split; [lia|done].
Qed.

Lemma Lookup_absent KM p key value :
  0 <= GetSize p -> ~ has_key KM p key ->
  Lookup p key value KM = (false, value, p).
Proof.
  intros Hs Habs. unfold Lookup.
  pose proof (KeyIndex_absent KM p key Habs Hs). by case_decide.
Qed.

(** A key just inserted is found, with the value inserted. *)
Lemma Lookup_Insert KM p key v value :
  key_order KM -> page_wf p -> sorted KM (pairs p) ->
  insert_fits p key v -> ~ has_key KM p key ->
  Lookup (Insert p key v KM).1 key value KM = (true, v, (Insert p key v KM).1).
Proof.
  intros HKM Hwf Hsort Hfit Habs.
  destruct (Insert_spec KM p key v HKM Hwf Hsort Hfit) as (Hr & _ & Hp & _ & Hs' & _).
  specialize (Hs' Habs).
  pose proof (resized_header _ _ _ Hr) as (Hsz & _).
  pose proof (wf_size p Hwf) as Hs.
  pose proof (KeyIndex_range p key KM ltac:(lia)) as Hidx.
  assert (Hslot : GetItem (Insert p key v KM).1 (KeyIndex p key KM) = (key, v)).
  { assert (Hl : pairs (Insert p key v KM).1 !! Z.to_nat (KeyIndex p key KM)
                 = Some (GetItem (Insert p key v KM).1 (KeyIndex p key KM)))
      by (apply lookup_pairs_Z; lia).
    rewrite Hp, lookup_insert_at in Hl by (rewrite length_pairs; lia).
    repeat case_decide; try lia. congruence. }
  set (p' := (Insert p key v KM).1) in *. clearbody p'.
  unfold GetItem in Hslot. injection Hslot as Hkey Hval.
  rewrite (Lookup_found KM p' key value (KeyIndex p key KM) HKM Hs').
  - by rewrite Hval.
  - lia.
  - rewrite Hkey. apply (cmp_refl KM HKM).
Qed.

(** A key just removed is not found. *)
Lemma Remove_then_absent KM p key :
  key_order KM -> page_wf p -> sorted KM (pairs p) ->
  ~ has_key KM (RemoveAndDeleteRecord p key KM).1 key.
Proof.
  intros HKM Hwf Hsort. pose proof (wf_size p Hwf) as Hs.
  destruct (decide (has_key KM p key)) as [Hin|Habs].
  2:{ rewrite Remove_absent by (done || lia). done. }
  apply has_key_slot in Hin as (i & Hi & Heq).
  destruct (Remove_found KM p key i HKM Hwf Hsort Hi Heq) as (-> & Hr & Hp).
  cbn [fst]. unfold has_key. rewrite Hp, Exists_exists.
  intros (kv & Hkv & Hc).
  apply list_elem_of_lookup_1 in Hkv as [k Hk].
  rewrite list_lookup_delete in Hk.
  assert (exists j : nat, j <> Z.to_nat i /\ pairs p !! j = Some kv) as (j & Hji & Hj).
  { case_decide; [exists k|exists (S k)]; split; (done || lia). }
  apply lookup_pairs_Some in Hj as [Hjs ->].
  pose proof (KeyIndex_found KM p key (Z.of_nat j) HKM Hsort ltac:(lia) Hc).
  pose proof (KeyIndex_found KM p key i HKM Hsort Hi Heq). lia.
Qed.

(** C4: on a sorted page, if a live pair has a key equal to the searched key,
    [Lookup] returns true and stores the value of that pair; if no live pair
    has, it returns false and leaves the out-parameter alone; the page is the
    same after the call.  The value found is the one written last: after an
    [Insert] of the key it is the value inserted, and after a
    [RemoveAndDeleteRecord] of the key the key is not found. *)
Theorem Lookup_correct KM p key value :
  key_order KM -> 0 <= GetSize p -> sorted KM (pairs p) ->
  (forall i, 0 <= i < GetSize p -> CompareKeys KM key (KeyAt p i) = 0 ->
     Lookup p key value KM = (true, ValueAt p i, p)) /\
  (~ has_key KM p key -> Lookup p key value KM = (false, value, p)) /\
  (Lookup p key value KM).2 = p /\
  (forall v, page_wf p -> insert_fits p key v -> ~ has_key KM p key ->
     Lookup (Insert p key v KM).1 key value KM = (true, v, (Insert p key v KM).1)) /\
  (page_wf p ->
     Lookup (RemoveAndDeleteRecord p key KM).1 key value KM
       = (false, value, (RemoveAndDeleteRecord p key KM).1)).
Proof.
  intros HKM Hs Hsort. split; [|split; [|split; [|split]]].
  - intros i Hi Heq. by apply Lookup_found.
  - intros Habs. by apply Lookup_absent.
  - unfold Lookup. by case_decide.
  - intros v Hwf Hfit Habs. by apply Lookup_Insert.
  - intros Hwf. apply Lookup_absent.
    + destruct (Remove_preserves KM p key HKM Hwf Hsort) as [Hwf' _].
      apply (wf_size _ Hwf').
    + by apply Remove_then_absent.
Qed.

(** C5: on a sorted page, [RemoveAndDeleteRecord] of a key that a live pair
    has removes that pair, the pairs behind it moving one slot to the left in
    their order, and returns the former size minus one, the new size; of a
    key that no live pair has it returns the page as it was, with its size,
    and so does a repeated call. *)
Theorem Remove_correct KM p key :
  key_order KM -> page_wf p -> sorted KM (pairs p) ->
  (forall i, 0 <= i < GetSize p -> CompareKeys KM key (KeyAt p i) = 0 ->
     pairs (RemoveAndDeleteRecord p key KM).1 = delete (Z.to_nat i) (pairs p) /\
     (RemoveAndDeleteRecord p key KM).2 = GetSize p - 1 /\
     resized p (RemoveAndDeleteRecord p key KM).1 (GetSize p - 1)) /\
  (~ has_key KM p key ->
     RemoveAndDeleteRecord p key KM = (p, GetSize p) /\
     RemoveAndDeleteRecord (RemoveAndDeleteRecord p key KM).1 key KM = (p, GetSize p)).
Proof.
  intros HKM Hwf Hsort. pose proof (wf_size p Hwf) as Hs. split.
  - intros i Hi Heq.
    destruct (Remove_found KM p key i HKM Hwf Hsort Hi Heq) as (-> & Hr & Hp).
    done.
  - intros Habs. rewrite !Remove_absent by (done || lia). cbn [fst].
    by rewrite Remove_absent by (done || lia).
Qed.

(** *** Split, merge and redistribution *)

Lemma wf_live_room p :
  page_wf p -> GetSize p * pair_size p <= Z.of_nat (length (data_ p)).
Proof.
  intros [Hk Hs Hb]. pose proof (pair_size_nonneg p Hk). nia.
Qed.

Lemma half_split n : 0 <= n ->
  n - n `div` 2 = (n + 1) `div` 2 /\ 0 <= n `div` 2 <= n /\ 0 <= (n + 1) `div` 2 <= n.
Proof. intros Hn. Z.to_euclidean_division_equations. lia. Qed.

Lemma MoveHalfTo_spec p r :
  page_wf p -> GetKeySize r = GetKeySize p -> GetSize r = 0 ->
  (GetSize p `div` 2) * pair_size r <= Z.of_nat (length (data_ r)) ->
  resized p (MoveHalfTo p r).1 ((GetSize p + 1) `div` 2) /\
  resized r (MoveHalfTo p r).2 (GetSize p `div` 2) /\
  pairs (MoveHalfTo p r).1 = take (Z.to_nat ((GetSize p + 1) `div` 2)) (pairs p) /\
  pairs (MoveHalfTo p r).2 = drop (Z.to_nat ((GetSize p + 1) `div` 2)) (pairs p).
Proof.
  intros Hwf Hks Hr0 Hroom. pose proof (wf_size p Hwf) as Hs.
  pose proof (wf_key_size p Hwf) as Hk. pose proof (wf_live_room p Hwf) as Hlive.
  unfold MoveHalfTo. cbv zeta. cbn [fst snd].
  rewrite Z.quot_div_nonneg by lia.
  destruct (half_split (GetSize p) ltac:(lia)) as (Hhalf & Hlo & Hhi).
  rewrite Hhalf.
  destruct (CopyNFrom_spec p r ((GetSize p + 1) `div` 2) (GetSize p `div` 2))
    as [Hres Hp]; try (done || lia).
  rewrite Hr0, Z.add_0_l in Hres.
  split; [by split|]. split; [done|]. split.
  - apply pairs_SetSize. lia.
  - rewrite Hp, (pairs_empty r Hr0), app_nil_l.
    rewrite drop_pairs by lia. do 2 f_equal. lia.
Qed.

(** C6: for a sorted page of size [n] and a freshly initialized recipient of
    the same key size whose array has room for [n / 2] pairs, [MoveHalfTo]
    leaves the first [(n + 1) / 2] pairs in this page and appends the last
    [n / 2] pairs to the recipient, which then holds exactly them; the sizes
    add up to [n], every key left is at most every key moved (it is before
    it), and the pairs of the two pages in a row are the former pairs. *)
Theorem MoveHalfTo_split KM p raw page_id parent_id max_size :
  page_wf p -> sorted KM (pairs p) ->
  (GetSize p `div` 2) * pair_size p <= Z.of_nat (length (data_ raw)) ->
  pairs (MoveHalfTo p (Init raw page_id parent_id (GetKeySize p) max_size)).2
    = drop (Z.to_nat ((GetSize p + 1) `div` 2)) (pairs p) /\
  GetSize (MoveHalfTo p (Init raw page_id parent_id (GetKeySize p) max_size)).2
    = GetSize p `div` 2 /\
  pairs (MoveHalfTo p (Init raw page_id parent_id (GetKeySize p) max_size)).1
    = take (Z.to_nat ((GetSize p + 1) `div` 2)) (pairs p) /\
  GetSize (MoveHalfTo p (Init raw page_id parent_id (GetKeySize p) max_size)).1
    = (GetSize p + 1) `div` 2 /\
  GetSize (MoveHalfTo p (Init raw page_id parent_id (GetKeySize p) max_size)).1
    + GetSize (MoveHalfTo p (Init raw page_id parent_id (GetKeySize p) max_size)).2
    = GetSize p /\
  (forall a b,
     a ∈ pairs (MoveHalfTo p (Init raw page_id parent_id (GetKeySize p) max_size)).1 ->
     b ∈ pairs (MoveHalfTo p (Init raw page_id parent_id (GetKeySize p) max_size)).2 ->
     CompareKeys KM a.1 b.1 <= 0) /\
  pairs (MoveHalfTo p (Init raw page_id parent_id (GetKeySize p) max_size)).1
    ++ pairs (MoveHalfTo p (Init raw page_id parent_id (GetKeySize p) max_size)).2
    = pairs p.
Proof.
  intros Hwf Hsort Hroom.
  set (r := Init raw page_id parent_id (GetKeySize p) max_size).
  destruct (MoveHalfTo_spec p r Hwf eq_refl eq_refl Hroom) as (Hl & Hr & Hpl & Hpr).
  pose proof (resized_header _ _ _ Hl) as (Hszl & _).
  pose proof (resized_header _ _ _ Hr) as (Hszr & _).
  pose proof (wf_size p Hwf) as Hs.
  rewrite Hpl, Hpr, Hszl, Hszr.
  repeat split; try done.
  - pose proof (half_split (GetSize p) ltac:(lia)). lia.
  - intros a b Ha Hb.
    pose proof (sorted_take_drop_lt KM _ _ a b Hsort Ha Hb) as Hlt.
    unfold key_lt in Hlt. lia.
  - apply take_drop.
Qed.

(** C10: [MoveHalfTo] writes the pair array and the size of the two pages
    only: the next page id, page id, parent page id, key size and capacity of
    either page are as before; the recipient of a split keeps the next page
    id that [Init] gave it and this page still names its former successor. *)
Theorem MoveHalfTo_frame p r raw page_id parent_id key_size max_size :
  (GetNextPageId (MoveHalfTo p r).1 = GetNextPageId p /\
   GetPageId (MoveHalfTo p r).1 = GetPageId p /\
   GetParentPageId (MoveHalfTo p r).1 = GetParentPageId p /\
   GetKeySize (MoveHalfTo p r).1 = GetKeySize p /\
   GetMaxSize (MoveHalfTo p r).1 = GetMaxSize p /\
   data_ (MoveHalfTo p r).1 = data_ p) /\
  (GetNextPageId (MoveHalfTo p r).2 = GetNextPageId r /\
   GetPageId (MoveHalfTo p r).2 = GetPageId r /\
   GetParentPageId (MoveHalfTo p r).2 = GetParentPageId r /\
   GetKeySize (MoveHalfTo p r).2 = GetKeySize r /\
   GetMaxSize (MoveHalfTo p r).2 = GetMaxSize r /\
   length (data_ (MoveHalfTo p r).2) = length (data_ r)) /\
  GetNextPageId (MoveHalfTo p (Init raw page_id parent_id key_size max_size)).2
    = INVALID_PAGE_ID.
Proof.
  repeat split. unfold MoveHalfTo, CopyNFrom. cbn. apply length_mem_write.
Qed.

Lemma pairs_SetNextPageId p next : pairs (SetNextPageId p next) = pairs p.
Proof. reflexivity. Qed.

(** C7: for sorted pages of the same key size, with every key of the
    recipient before every key of this page and room for all pairs in the
    recipient, [MoveAllTo] appends the pairs of this page in order to those
    of the recipient, gives the recipient the next page id of this page and
    sets the size of this page to 0; the recipient then has the sum of the two
    sizes and is sorted. *)
Theorem MoveAllTo_merge KM p r :
  page_wf p -> page_wf r -> GetKeySize r = GetKeySize p ->
  sorted KM (pairs p) -> sorted KM (pairs r) ->
  keys_before KM (pairs r) (pairs p) ->
  GetSize r + GetSize p <= GetMaxSize r ->
  pairs (MoveAllTo p r).2 = pairs r ++ pairs p /\
  GetNextPageId (MoveAllTo p r).2 = GetNextPageId p /\
  GetSize (MoveAllTo p r).1 = 0 /\
  pairs (MoveAllTo p r).1 = [] /\
  GetSize (MoveAllTo p r).2 = GetSize r + GetSize p /\
  sorted KM (pairs (MoveAllTo p r).2).
Proof.
  intros Hwfp Hwfr Hks Hsp Hsr Hlt Hfit.
  pose proof (wf_size p Hwfp) as Hs. pose proof (wf_size r Hwfr) as Hs'.
  pose proof (wf_key_size p Hwfp) as Hk. pose proof (wf_key_size r Hwfr) as Hk'.
  pose proof (wf_live_room p Hwfp) as Hlive.
  pose proof (wf_room r Hwfr) as Hroom.
  pose proof (pair_size_nonneg r Hk') as Hps.
  unfold MoveAllTo. cbv zeta. cbn [fst snd].
  destruct (CopyNFrom_spec p r 0 (GetSize p)) as [Hres Hp]; try (done || lia).
  { nia. }
  pose proof (resized_header _ _ _ Hres) as (Hsz & _).
  rewrite pairs_SetNextPageId, Hp.
  change (GetItem p <$> seqZ 0 (GetSize p)) with (pairs p).
  repeat split; try done.
  apply StronglySorted_app_2; [by apply keys_before_elem|done|done].
Qed.

Lemma MoveFirstToEndOf_eq p r :
  MoveFirstToEndOf p r = (remove_at p 0, CopyLastFrom r (KeyAt p 0) (ValueAt p 0)).
Proof. reflexivity. Qed.

Lemma MoveLastToFrontOf_eq p r :
  MoveLastToFrontOf p r =
    (SetSize p (GetSize p - 1),
     CopyFirstFrom r (KeyAt p (GetSize p - 1)) (ValueAt p (GetSize p - 1))).
Proof. reflexivity. Qed.

Lemma borrowed_fits p r i :
  page_wf p -> GetKeySize r = GetKeySize p -> 0 <= i < GetSize p ->
  GetSize r < GetMaxSize r ->
  insert_fits r (KeyAt p i) (ValueAt p i).
Proof.
  intros Hwf Hks Hi Hlt. pose proof (wf_key_size p Hwf) as Hk.
  assert (slot_in_buffer p i).
  { apply (slot_in_buffer_lt p i (GetSize p)); [done|done|by apply wf_live_room]. }
  split; [done|]. split.
  - rewrite Hks. by apply length_KeyAt.
  - by apply length_ValueAt.
Qed.

(** C8: for a sorted, non-empty page and a sorted recipient of the same key
    size with a free slot: if every key of the recipient is before every key
    of this page, [MoveFirstToEndOf] takes the first pair of this page and
    appends it as it is to the recipient; if every key of this page is before
    every key of the recipient, [MoveLastToFrontOf] takes the last pair of
    this page and puts it as it is in front of the pairs of the recipient.
    Either way this page loses one pair and the recipient gains one, and both
    pages are sorted afterwards. *)
Theorem redistribute_correct KM p r :
  page_wf p -> page_wf r -> GetKeySize r = GetKeySize p ->
  0 < GetSize p -> GetSize r < GetMaxSize r ->
  sorted KM (pairs p) -> sorted KM (pairs r) ->
  (keys_before KM (pairs r) (pairs p) ->
     pairs p = GetItem p 0 :: pairs (MoveFirstToEndOf p r).1 /\
     pairs (MoveFirstToEndOf p r).2 = pairs r ++ [GetItem p 0] /\
     GetSize (MoveFirstToEndOf p r).1 = GetSize p - 1 /\
     GetSize (MoveFirstToEndOf p r).2 = GetSize r + 1 /\
     sorted KM (pairs (MoveFirstToEndOf p r).1) /\
     sorted KM (pairs (MoveFirstToEndOf p r).2)) /\
  (keys_before KM (pairs p) (pairs r) ->
     pairs p = pairs (MoveLastToFrontOf p r).1 ++ [GetItem p (GetSize p - 1)] /\
     pairs (MoveLastToFrontOf p r).2 = GetItem p (GetSize p - 1) :: pairs r /\
     GetSize (MoveLastToFrontOf p r).1 = GetSize p - 1 /\
     GetSize (MoveLastToFrontOf p r).2 = GetSize r + 1 /\
     sorted KM (pairs (MoveLastToFrontOf p r).1) /\
     sorted KM (pairs (MoveLastToFrontOf p r).2)).
Proof.
  intros Hwfp Hwfr Hks Hpos Hlt Hsp Hsr.
  pose proof (wf_size p Hwfp) as Hs.
  split; intros Hord; rewrite keys_before_elem in Hord.
  - rewrite MoveFirstToEndOf_eq. cbn [fst snd].
    destruct (remove_at_spec p 0 Hwfp ltac:(lia)) as [Hrp Hpp].
    destruct (CopyLastFrom_spec r (KeyAt p 0) (ValueAt p 0) Hwfr) as [Hrr Hpr].
    { apply borrowed_fits; (done || lia). }
    pose proof (resized_header _ _ _ Hrp) as (Hszp & _).
    pose proof (resized_header _ _ _ Hrr) as (Hszr & _).
    assert (Hhd : pairs p !! 0%nat = Some (GetItem p 0))
      by (apply (lookup_pairs_Z p 0); lia).
    assert (Hcons : pairs p = GetItem p 0 :: delete 0%nat (pairs p)).
    { destruct (pairs p) as [|x l]; [done|]. simpl in *. congruence. }
    rewrite Hpp, Hpr. repeat split; try done.
    + by apply sorted_delete.
    + apply StronglySorted_app_2; [|done|repeat constructor].
      intros a b Ha Hb. apply list_elem_of_singleton in Hb as ->.
      apply Hord; [done|]. by eapply list_elem_of_lookup_2.
  - rewrite MoveLastToFrontOf_eq. cbn [fst snd].
    destruct (CopyFirstFrom_spec r (KeyAt p (GetSize p - 1)) (ValueAt p (GetSize p - 1)) Hwfr)
      as [Hrr Hpr].
    { apply borrowed_fits; (done || lia). }
    pose proof (resized_header _ _ _ Hrr) as (Hszr & _).
    rewrite pairs_SetSize, Hpr by lia.
    assert (Hlast : pairs p !! Z.to_nat (GetSize p - 1) = Some (GetItem p (GetSize p - 1)))
      by (apply lookup_pairs_Z; lia).
    repeat split; try done.
    + rewrite <- (take_drop (Z.to_nat (GetSize p - 1)) (pairs p)) at 1. f_equal.
      apply list_eq. intros k. rewrite lookup_drop.
      destruct k as [|k]; simpl.
      * by rewrite Nat.add_0_r.
      * apply lookup_ge_None. rewrite length_pairs. lia.
    + by apply sorted_take.
    + constructor; [done|]. apply Forall_forall. intros b Hb.
      apply Hord; [|done]. by eapply list_elem_of_lookup_2.
Qed.

(** ** Further properties of the page *)

(** *** Searching *)

(** X1: whatever the bytes of the page, sorted or not, [KeyIndex] returns an
    index between [0] and [size]; so the slot [Lookup], [Insert] and
    [RemoveAndDeleteRecord] go on to use is never before the array nor behind
    the first free slot. *)
Theorem KeyIndex_within_size p key KM :
  0 <= GetSize p ->
  0 <= KeyIndex p key KM <= GetSize p /\
  (GetSize p = 0 -> KeyIndex p key KM = 0).
Proof.
  intros Hs. pose proof (KeyIndex_range p key KM Hs). split; [done|lia].
Qed.

(** X2: on a sorted page [KeyIndex] is monotone in the key: a key that is not
    after another gets an index that is not after the other's. *)
Theorem KeyIndex_monotone KM p key1 key2 :
  key_order KM -> 0 <= GetSize p -> sorted KM (pairs p) ->
  CompareKeys KM key1 key2 <= 0 ->
  KeyIndex p key1 KM <= KeyIndex p key2 KM.
Proof.
  intros HKM Hs Hsort Hle.
  destruct (KeyIndex_sorted KM p key1 HKM Hs Hsort) as [Hlo1 _].
  destruct (KeyIndex_sorted KM p key2 HKM Hs Hsort) as [_ Hhi2].
  pose proof (KeyIndex_range p key1 KM Hs) as Hr1.
  pose proof (KeyIndex_range p key2 KM Hs) as Hr2.
  destruct (decide (KeyIndex p key1 KM <= KeyIndex p key2 KM)) as [|Hgt]; [done|].
  exfalso.
  assert (H1 : CompareKeys KM key1 (KeyAt p (KeyIndex p key2 KM)) > 0)
    by (apply Hlo1; lia).
  assert (H2 : CompareKeys KM key2 (KeyAt p (KeyIndex p key2 KM)) <= 0)
    by (apply Hhi2; lia).
  pose proof (cmp_le_trans KM HKM _ _ _ Hle H2). lia.
Qed.

(** *** The layout of the array *)

(** X3: the two stores of a pair into a slot of the array can be read back,
    key and value, and leave the pair of every other slot as it was: the key
    and value ranges of the slots do not overlap. *)
Theorem store_pair_read_back p i key value :
  0 <= GetKeySize p -> slot_in_buffer p i ->
  length key = Z.to_nat (GetKeySize p) -> length value = sizeof_RowId ->
  KeyAt (SetValueAt (SetKeyAt p i key) i value) i = key /\
  ValueAt (SetValueAt (SetKeyAt p i key) i value) i = value /\
  (forall j, 0 <= j -> j <> i ->
     GetItem (SetValueAt (SetKeyAt p i key) i value) j = GetItem p j) /\
  GetSize (SetValueAt (SetKeyAt p i key) i value) = GetSize p /\
  length (data_ (SetValueAt (SetKeyAt p i key) i value)) = length (data_ p).
Proof.
  intros Hk Hi Hkey Hval.
  pose proof (GetItem_store_same p i key value Hk Hi Hkey Hval) as Hsame.
  unfold GetItem in Hsame. injection Hsame as H1 H2.
  split; [done|]. split; [done|]. split.
  - intros j Hj Hne. apply GetItem_store_other; [done|apply Hi|done|congruence].
  - split; [done|].
    apply (buffer_update_header _ _ (buffer_update_store p i key value)).
Qed.

Lemma take_plus {A} (l : list A) (a b : nat) :
  take (a + b) l = take a l ++ take b (drop a l).
Proof.
  revert l. induction a as [|a IH]; intros l; [done|].
  destruct l as [|x l]; simpl; [by rewrite take_nil|]. by rewrite IH.
Qed.

(** The bytes of one slot are its key followed by its value. *)
Lemma slot_bytes p i :
  0 <= GetKeySize p -> 0 <= i ->
  KeyAt p i ++ ValueAt p i
    = Mem.read (data_ p) (Z.to_nat (i * pair_size p)) (Z.to_nat (pair_size p)).
Proof.
  intros Hk Hi. unfold KeyAt, ValueAt, Mem.read, val_off, key_off.
  assert (0 <= i * pair_size p) by (apply slot_nonneg; [by apply pair_size_nonneg|done]).
  replace (Z.to_nat (pair_size p)) with (Z.to_nat (GetKeySize p) + sizeof_RowId)%nat
    by (unfold pair_size; lia).
  rewrite take_plus, drop_drop. do 3 f_equal; lia.
Qed.

Lemma slots_layout p (n : nat) :
  0 <= GetKeySize p ->
  concat ((fun kv => kv.1 ++ kv.2) <$> (GetItem p <$> seqZ 0 (Z.of_nat n)))
    = take (Z.to_nat (Z.of_nat n * pair_size p)) (data_ p).
Proof.
  intros Hk. pose proof (pair_size_nonneg p Hk) as Hps.
  induction n as [|n IH]; [done|].
  rewrite seqZ_S, !fmap_app, concat_app, IH. simpl. rewrite app_nil_r.
  rewrite slot_bytes by lia. unfold Mem.read.
  assert (0 <= Z.of_nat n * pair_size p) by (apply slot_nonneg; lia).
  replace (Z.to_nat (Z.of_nat (S n) * pair_size p))
    with (Z.to_nat (Z.of_nat n * pair_size p) + Z.to_nat (pair_size p))%nat by lia.
  by rewrite take_plus.
Qed.

(** X4: the live pairs lie back to back at the start of the array, each key
    followed by its value: the first [size * pair_size] bytes of [data_] are
    the keys and values of the pairs, in order, with no gap. *)
Theorem pairs_layout p :
  0 <= GetKeySize p -> 0 <= GetSize p ->
  concat ((fun kv => kv.1 ++ kv.2) <$> pairs p)
    = take (Z.to_nat (GetSize p * pair_size p)) (data_ p).
Proof.
  intros Hk Hs. unfold pairs.
  rewrite <- (Z2Nat.id (GetSize p)) by done. apply slots_layout. done.
Qed.

(** *** An empty page *)

(** X5: whatever the page held before, after [Init] it is an empty leaf with
    the ids, key size and capacity given and no next page; the array is not
    touched; every search ends at index [0], every [Lookup] reports not found
    and leaves the out-parameter alone, and every [RemoveAndDeleteRecord]
    returns size [0] and the page as it is. *)
Theorem Init_empty raw page_id parent_id key_size max_size key value KM :
  pairs (Init raw page_id parent_id key_size max_size) = [] /\
  GetSize (Init raw page_id parent_id key_size max_size) = 0 /\
  GetPageType (Init raw page_id parent_id key_size max_size) = LEAF_PAGE /\
  GetPageId (Init raw page_id parent_id key_size max_size) = page_id /\
  GetParentPageId (Init raw page_id parent_id key_size max_size) = parent_id /\
  GetKeySize (Init raw page_id parent_id key_size max_size) = key_size /\
  GetMaxSize (Init raw page_id parent_id key_size max_size) = max_size /\
  GetNextPageId (Init raw page_id parent_id key_size max_size) = INVALID_PAGE_ID /\
  data_ (Init raw page_id parent_id key_size max_size) = data_ raw /\
  KeyIndex (Init raw page_id parent_id key_size max_size) key KM = 0 /\
  Lookup (Init raw page_id parent_id key_size max_size) key value KM
    = (false, value, Init raw page_id parent_id key_size max_size) /\
  RemoveAndDeleteRecord (Init raw page_id parent_id key_size max_size) key KM
    = (Init raw page_id parent_id key_size max_size, 0).
Proof.
  assert (Hidx : KeyIndex (Init raw page_id parent_id key_size max_size) key KM = 0).
  { unfold KeyIndex. rewrite KeyIndex_loop_eq. by case_decide. }
  assert (Hno : ~ (0 < GetSize (Init raw page_id parent_id key_size max_size) /\
                   CompareKeys KM key (KeyAt (Init raw page_id parent_id key_size max_size) 0) = 0))
    by (intros [H _]; simpl in H; lia).
  split; [done|]. do 8 (split; [done|]). split; [done|]. split.
  - unfold Lookup. rewrite Hidx. by case_decide.
  - unfold RemoveAndDeleteRecord. rewrite Hidx. by case_decide.
Qed.

(** *** Updates and the rest of the page *)

(** A key that a pair of a sorted page has is found with the value of that
    pair. *)
Lemma Lookup_in_pairs KM p key value kv :
  key_order KM -> sorted KM (pairs p) ->
  kv ∈ pairs p -> CompareKeys KM key kv.1 = 0 ->
  Lookup p key value KM = (true, kv.2, p).
Proof.
  intros HKM Hsort Hin Heq.
  apply list_elem_of_lookup_1 in Hin as [k Hk].
  apply lookup_pairs_Some in Hk as [Hlt ->].
  apply Lookup_found; [done|done|lia|done].
Qed.

Lemma elem_of_insert_at {A} (l : list A) (i : nat) (x y : A) :
  y ∈ take i l ++ x :: drop i l <-> y = x \/ y ∈ l.
Proof.
  rewrite <- (take_drop i l) at 3.
  rewrite !elem_of_app, elem_of_cons. tauto.
Qed.

Lemma has_key_elem KM p key :
  has_key KM p key <-> exists kv, kv ∈ pairs p /\ CompareKeys KM key kv.1 = 0.
Proof. unfold has_key. by rewrite Exists_exists. Qed.

(** The slot of the pair that [Insert] stores. *)
Lemma Insert_slot KM p key v :
  key_order KM -> page_wf p -> sorted KM (pairs p) -> insert_fits p key v ->
  KeyAt (Insert p key v KM).1 (KeyIndex p key KM) = key /\
  ValueAt (Insert p key v KM).1 (KeyIndex p key KM) = v.
Proof.
  intros HKM Hwf Hsort Hfit.
  destruct (Insert_spec KM p key v HKM Hwf Hsort Hfit) as (Hr & _ & Hp & _).
  pose proof (resized_header _ _ _ Hr) as (Hsz & _).
  pose proof (wf_size p Hwf) as Hs.
  pose proof (KeyIndex_range p key KM ltac:(lia)) as Hidx.
  assert (Hl : pairs (Insert p key v KM).1 !! Z.to_nat (KeyIndex p key KM)
               = Some (GetItem (Insert p key v KM).1 (KeyIndex p key KM)))
    by (apply lookup_pairs_Z; lia).
  rewrite Hp, lookup_insert_at in Hl by (rewrite length_pairs; lia).
  set (p' := (Insert p key v KM).1) in *. clearbody p'.
  repeat case_decide; try lia. unfold GetItem in Hl. by injection Hl as <- <-.
Qed.

(** X6: on a sorted page, [Insert] of a key that the page does not hold
    changes the outcome of [Lookup] for no other key: a key that compares
    different from the inserted one is found with the same value as before,
    or is not found as before. *)
Theorem Lookup_Insert_other KM p key v key' value :
  key_order KM -> page_wf p -> sorted KM (pairs p) ->
  insert_fits p key v -> ~ has_key KM p key ->
  CompareKeys KM key' key <> 0 ->
  (Lookup (Insert p key v KM).1 key' value KM).1 = (Lookup p key' value KM).1.
Proof.
  intros HKM Hwf Hsort Hfit Habs Hne.
  destruct (Insert_spec KM p key v HKM Hwf Hsort Hfit) as (Hr & _ & Hp & _ & Hs' & Hwf').
  specialize (Hs' Habs).
  pose proof (wf_size p Hwf) as Hs. pose proof (wf_size _ Hwf') as Hsz'.
  destruct (decide (has_key KM p key')) as [Hin|Hout].
  - apply has_key_elem in Hin as (kv & Hkv & Heq).
    rewrite (Lookup_in_pairs KM p key' value kv HKM Hsort Hkv Heq).
    rewrite (Lookup_in_pairs KM _ key' value kv HKM Hs'); [done| |done].
    rewrite Hp. apply elem_of_insert_at. by right.
  - rewrite (Lookup_absent KM p key' value) by (done || lia).
    rewrite Lookup_absent; [done|lia|].
    rewrite has_key_elem. intros (kv & Hkv & Heq).
    rewrite Hp in Hkv. apply elem_of_insert_at in Hkv as [->|Hkv]; [done|].
    apply Hout, has_key_elem. by exists kv.
Qed.

Lemma cmp_equal_ne KM a b c :
  key_order KM -> CompareKeys KM a b = 0 -> CompareKeys KM c a <> 0 ->
  CompareKeys KM c b <> 0.
Proof.
  intros HKM Hab Hca Hcb.
  pose proof (cmp_equal KM HKM a b c Hab).
  pose proof (cmp_antisym KM HKM a c). pose proof (cmp_antisym KM HKM b c). lia.
Qed.

(** X7: on a sorted page, [RemoveAndDeleteRecord] changes the outcome of
    [Lookup] for no other key: a key that compares different from the removed
    one is found with the same value as before, or is not found as before. *)
Theorem Lookup_Remove_other KM p key key' value :
  key_order KM -> page_wf p -> sorted KM (pairs p) ->
  CompareKeys KM key' key <> 0 ->
  (Lookup (RemoveAndDeleteRecord p key KM).1 key' value KM).1
    = (Lookup p key' value KM).1.
Proof.
  intros HKM Hwf Hsort Hne. pose proof (wf_size p Hwf) as Hs.
  destruct (decide (has_key KM p key)) as [Hk|Hk].
  2:{ rewrite Remove_absent by (done || lia). done. }
  apply has_key_slot in Hk as (i & Hi & Heq).
  destruct (Remove_preserves KM p key HKM Hwf Hsort) as [Hwf' Hs'].
  pose proof (wf_size _ Hwf') as Hsz'.
  destruct (Remove_found KM p key i HKM Hwf Hsort Hi Heq) as (Hrm & Hr & Hp).
  rewrite Hrm in *. cbn [fst] in *.
  pose proof (cmp_equal_ne KM key (KeyAt p i) key' HKM Heq Hne) as Hne'.
  destruct (decide (has_key KM p key')) as [Hin|Hout].
  - apply has_key_elem in Hin as (kv & Hkv & Heq').
    rewrite (Lookup_in_pairs KM p key' value kv HKM Hsort Hkv Heq').
    rewrite (Lookup_in_pairs KM _ key' value kv HKM Hs'); [done| |done].
    rewrite Hp. apply list_elem_of_lookup_1 in Hkv as [k Hk].
    assert (k <> Z.to_nat i).
    { intros ->. rewrite lookup_pairs_Z in Hk by done. injection Hk as <-. done. }
    destruct (decide (k < Z.to_nat i)%nat).
    + apply (list_elem_of_lookup_2 _ k). by rewrite list_lookup_delete_lt.
    + apply (list_elem_of_lookup_2 _ (k - 1)%nat).
      rewrite list_lookup_delete_ge by lia. rewrite <- Hk. f_equal. lia.
  - rewrite (Lookup_absent KM p key' value) by (done || lia).
    rewrite Lookup_absent; [done|lia|].
    rewrite has_key_elem. intros (kv & Hkv & Heq').
    rewrite Hp in Hkv. apply list_elem_of_delete_inv in Hkv.
    apply Hout, has_key_elem. by exists kv.
Qed.

(** *** Round trips *)

(** X8: on a sorted page, [Insert] of a key that the page does not hold
    followed by [RemoveAndDeleteRecord] of that key gives back the pairs and
    the size the page had; the second call returns that size. *)
Theorem Remove_after_Insert KM p key v :
  key_order KM -> page_wf p -> sorted KM (pairs p) ->
  insert_fits p key v -> ~ has_key KM p key ->
  pairs (RemoveAndDeleteRecord (Insert p key v KM).1 key KM).1 = pairs p /\
  (RemoveAndDeleteRecord (Insert p key v KM).1 key KM).2 = GetSize p /\
  GetSize (RemoveAndDeleteRecord (Insert p key v KM).1 key KM).1 = GetSize p.
Proof.
  intros HKM Hwf Hsort Hfit Habs.
  destruct (Insert_spec KM p key v HKM Hwf Hsort Hfit) as (Hr & _ & Hp & _ & Hs' & Hwf').
  specialize (Hs' Habs).
  pose proof (resized_header _ _ _ Hr) as (Hsz & _).
  pose proof (wf_size p Hwf) as Hs.
  pose proof (KeyIndex_range p key KM ltac:(lia)) as Hidx.
  pose proof (Insert_slot KM p key v HKM Hwf Hsort Hfit) as [Hkey Hval].
  destruct (Remove_found KM (Insert p key v KM).1 key (KeyIndex p key KM)
              HKM Hwf' Hs') as (Hrm & Hr' & Hp'); [lia| |].
  { rewrite Hkey. apply (cmp_refl KM HKM). }
  pose proof (resized_header _ _ _ Hr') as (Hsz' & _).
  rewrite Hrm. cbn [fst snd]. rewrite Hp', Hp, Hsz', Hsz.
  split; [|lia].
  assert (Hlen : length (take (Z.to_nat (KeyIndex p key KM)) (pairs p))
                 = Z.to_nat (KeyIndex p key KM))
    by (rewrite length_take, length_pairs; lia).
  rewrite <- Hlen at 1. rewrite delete_middle. apply take_drop.
Qed.

Lemma insert_sorted_delete KM l (i : nat) kv :
  key_order KM -> sorted KM l -> l !! i = Some kv ->
  insert_sorted KM kv (delete i l) = l.
Proof.
  intros HKM Hsort Hi.
  pose proof (lookup_lt_Some _ _ _ Hi) as Hlt.
  rewrite (insert_sorted_take_drop KM kv (delete i l) i).
  - rewrite delete_take_drop.
    rewrite take_app_le by (rewrite length_take; lia).
    rewrite take_take, Nat.min_id.
    rewrite drop_app_ge by (rewrite length_take; lia).
    rewrite length_take, Nat.min_l, Nat.sub_diag by lia.
    change (drop 0 (drop (S i) l)) with (drop (S i) l).
    by apply take_drop_middle.
  - rewrite length_delete by eauto. lia.
  - intros j x Hj Hx. rewrite list_lookup_delete_lt in Hx by done.
    pose proof (sorted_lookup KM l j i x kv Hsort Hx Hi Hj) as H.
    unfold key_lt in H. apply (cmp_flip_lt KM HKM) in H. lia.
  - intros x Hx. rewrite list_lookup_delete_ge in Hx by done.
    pose proof (sorted_lookup KM l i (S i) kv x Hsort Hi Hx ltac:(lia)) as H.
    unfold key_lt in H. lia.
Qed.

(** X9: on a sorted page, [RemoveAndDeleteRecord] of a key that slot [i] has
    followed by [Insert] of the key and value that were in slot [i] gives back
    the pairs of the page. *)
Theorem Insert_after_Remove KM p key i :
  key_order KM -> page_wf p -> sorted KM (pairs p) ->
  0 <= i < GetSize p -> CompareKeys KM key (KeyAt p i) = 0 ->
  pairs (Insert (RemoveAndDeleteRecord p key KM).1 (KeyAt p i) (ValueAt p i) KM).1
    = pairs p /\
  (Insert (RemoveAndDeleteRecord p key KM).1 (KeyAt p i) (ValueAt p i) KM).2
    = GetSize p.
Proof.
  intros HKM Hwf Hsort Hi Heq.
  pose proof (wf_size p Hwf) as Hs. pose proof (wf_key_size p Hwf) as Hk.
  destruct (Remove_preserves KM p key HKM Hwf Hsort) as [Hwf' Hs'].
  destruct (Remove_found KM p key i HKM Hwf Hsort Hi Heq) as (Hrm & Hr & Hp).
  rewrite Hrm in *. cbn [fst] in *.
  pose proof (resized_header _ _ _ Hr) as (Hsz & Hks & Hms & _).
  assert (Hslot : slot_in_buffer p i).
  { apply (slot_in_buffer_lt p i (GetSize p)); [done|done|by apply wf_live_room]. }
  assert (Hfit : insert_fits (remove_at p i) (KeyAt p i) (ValueAt p i)).
  { split; [lia|]. split.
    - rewrite Hks. by apply length_KeyAt.
    - by apply length_ValueAt. }
  destruct (Insert_spec KM (remove_at p i) (KeyAt p i) (ValueAt p i) HKM Hwf' Hs' Hfit)
    as (_ & Hret & _ & Hins & _).
  rewrite Hret, Hins, Hp, Hsz. split; [|lia].
  apply (insert_sorted_delete KM (pairs p) (Z.to_nat i) (KeyAt p i, ValueAt p i) HKM Hsort).
  by apply lookup_pairs_Z.
Qed.

(** *** What [Insert] and [RemoveAndDeleteRecord] do not do *)

(** The slots of the page after [Insert], in terms of the slots before. *)
Lemma Insert_slots KM p key v k :
  key_order KM -> page_wf p -> sorted KM (pairs p) -> insert_fits p key v ->
  0 <= k <= GetSize p ->
  GetItem (Insert p key v KM).1 k =
    if decide (k < KeyIndex p key KM) then GetItem p k
    else if decide (k = KeyIndex p key KM) then (key, v) else GetItem p (k - 1).
Proof.
  intros HKM Hwf Hsort Hfit Hk.
  destruct (Insert_spec KM p key v HKM Hwf Hsort Hfit) as (Hr & _ & Hp & _).
  pose proof (resized_header _ _ _ Hr) as (Hsz & _).
  pose proof (wf_size p Hwf) as Hs.
  pose proof (KeyIndex_range p key KM ltac:(lia)) as Hidx.
  assert (Hl : pairs (Insert p key v KM).1 !! Z.to_nat k
               = Some (GetItem (Insert p key v KM).1 k))
    by (apply lookup_pairs_Z; lia).
  rewrite Hp, lookup_insert_at in Hl by (rewrite length_pairs; lia).
  set (p' := (Insert p key v KM).1) in *. clearbody p'.
  repeat case_decide; try lia.
  - rewrite lookup_pairs_Z in Hl by lia. congruence.
  - congruence.
  - replace (Z.to_nat k - 1)%nat with (Z.to_nat (k - 1)) in Hl by lia.
    rewrite lookup_pairs_Z in Hl by lia. congruence.
Qed.

(** X10: [Insert] does not look whether the page holds the key.  On a sorted
    page with a free slot, [Lookup] of the key after [Insert] always gives the
    value just inserted; if slot [i] held a pair with an equal key, that pair
    is kept, in slot [i + 1], behind the new one, and the size is one more. *)
Theorem Insert_shadows KM p key v value :
  key_order KM -> page_wf p -> sorted KM (pairs p) -> insert_fits p key v ->
  Lookup (Insert p key v KM).1 key value KM = (true, v, (Insert p key v KM).1) /\
  (forall i, 0 <= i < GetSize p -> CompareKeys KM key (KeyAt p i) = 0 ->
     GetItem (Insert p key v KM).1 i = (key, v) /\
     GetItem (Insert p key v KM).1 (i + 1) = GetItem p i /\
     GetSize (Insert p key v KM).1 = GetSize p + 1).
Proof.
  intros HKM Hwf Hsort Hfit.
  destruct (Insert_spec KM p key v HKM Hwf Hsort Hfit) as (Hr & _ & _).
  pose proof (resized_header _ _ _ Hr) as (Hsz & _).
  pose proof (wf_size p Hwf) as Hs.
  pose proof (KeyIndex_range p key KM ltac:(lia)) as Hidx.
  destruct (KeyIndex_sorted KM p key HKM ltac:(lia) Hsort) as [Hlo Hhi].
  pose proof (Insert_slots KM p key v) as Hslots.
  split.
  - set (p' := (Insert p key v KM).1) in *.
    assert (Hkey : forall k, 0 <= k <= GetSize p ->
              CompareKeys KM key (KeyAt p' k) <= 0 <-> KeyIndex p key KM <= k).
    { intros k Hk. specialize (Hslots k HKM Hwf Hsort Hfit Hk).
      change (KeyAt p' k) with (GetItem p' k).1. rewrite Hslots.
      repeat case_decide; cbn [fst GetItem].
      - pose proof (Hlo k ltac:(lia)). lia.
      - rewrite (cmp_refl KM HKM). lia.
      - pose proof (Hhi (k - 1) ltac:(lia)). lia. }
    assert (Hidx' : KeyIndex p' key KM = KeyIndex p key KM).
    { unfold KeyIndex at 1. rewrite Hsz.
      destruct (KeyIndex_loop_spec KM p' key 0 (GetSize p + 1 - 1) ltac:(lia))
        as (Hr' & Hlo' & Hhi').
      { intros a b Ha Hb. rewrite !Hkey by lia. lia. }
      destruct (Z.lt_trichotomy (KeyIndex_loop KM p' key 0 (GetSize p + 1 - 1))
                  (KeyIndex p key KM)) as [Hlt|[Heq|Hgt]]; [|done|].
      - set (r := KeyIndex_loop KM p' key 0 (GetSize p + 1 - 1)) in *.
        assert (H1 : CompareKeys KM key (KeyAt p' r) <= 0) by (apply Hhi'; lia).
        apply Hkey in H1; lia.
      - assert (H1 : CompareKeys KM key (KeyAt p' (KeyIndex p key KM)) > 0)
          by (apply Hlo'; lia).
        assert (H2 : CompareKeys KM key (KeyAt p' (KeyIndex p key KM)) <= 0)
          by (apply Hkey; lia).
        lia. }
    specialize (Hslots (KeyIndex p key KM) HKM Hwf Hsort Hfit Hidx).
    repeat case_decide; try lia.
    clearbody p'. unfold GetItem in Hslots. injection Hslots as Hk Hv.
    unfold Lookup. rewrite Hidx', Hk, Hv, (cmp_refl KM HKM).
    case_decide as Hc; [done|]. exfalso. apply Hc. split; [lia|done].
  - intros i Hi Heq.
    pose proof (KeyIndex_found KM p key i HKM Hsort Hi Heq) as Hfound.
    assert (Hi0 : 0 <= i <= GetSize p) by lia.
    assert (Hi1 : 0 <= i + 1 <= GetSize p) by lia.
    pose proof (Hslots i HKM Hwf Hsort Hfit Hi0) as H1.
    pose proof (Hslots (i + 1) HKM Hwf Hsort Hfit Hi1) as H2.
    rewrite Hfound in H1, H2.
    repeat case_decide; try lia.
    replace (i + 1 - 1) with i in H2 by lia. done.
Qed.

Lemma KeyIndex_loop_SetMaxSize KM p m key left_ right_ :
  KeyIndex_loop KM (SetMaxSize p m) key left_ right_ = KeyIndex_loop KM p key left_ right_.
Proof.
  remember (Z.to_nat (right_ + 1 - left_)) as n eqn:Hn.
  revert left_ right_ Hn.
  induction n as [n IH] using lt_wf_ind; intros left_ right_ Hn.
  rewrite (KeyIndex_loop_eq KM p), (KeyIndex_loop_eq KM (SetMaxSize p m)).
  case_decide as Hle; [|done]. cbv zeta.
  pose proof (quot2_bounds (right_ - left_) ltac:(lia)) as Hq.
  change (KeyAt (SetMaxSize p m) ?i) with (KeyAt p i).
  case_decide; (eapply IH; [|reflexivity]; lia).
Qed.

Lemma shift_right_loop_SetMaxSize p m index i :
  shift_right_loop (SetMaxSize p m) index i = SetMaxSize (shift_right_loop p index i) m.
Proof.
  remember (Z.to_nat (i - index)) as n eqn:Hn.
  revert p i Hn. induction n as [|n IH]; intros p i Hn;
    rewrite (shift_right_loop_eq p), (shift_right_loop_eq (SetMaxSize p m));
    case_decide; try lia; [done|].
  rewrite <- IH by lia. done.
Qed.

(** [Insert] never reads [max_size]. *)
Lemma Insert_SetMaxSize KM p m key v :
  Insert (SetMaxSize p m) key v KM
    = (SetMaxSize (Insert p key v KM).1 m, (Insert p key v KM).2).
Proof.
  unfold Insert, KeyIndex. cbv zeta. cbn [fst snd].
  change (GetSize (SetMaxSize p m)) with (GetSize p).
  rewrite KeyIndex_loop_SetMaxSize, shift_right_loop_SetMaxSize. done.
Qed.

(** X11: [Insert] does not check the capacity.  Whatever [max_size] is, also
    on a full page, if the array has room for one more pair then [Insert] on
    a sorted page stores the pair at its place and returns the size plus one;
    [max_size] is not changed, so on a full page the size then exceeds it. *)
Theorem Insert_ignores_capacity KM p key v :
  key_order KM -> 0 <= GetKeySize p -> 0 <= GetSize p ->
  (GetSize p + 1) * pair_size p <= Z.of_nat (length (data_ p)) ->
  sorted KM (pairs p) ->
  length key = Z.to_nat (GetKeySize p) -> length v = sizeof_RowId ->
  (Insert p key v KM).2 = GetSize p + 1 /\
  GetSize (Insert p key v KM).1 = GetSize p + 1 /\
  GetMaxSize (Insert p key v KM).1 = GetMaxSize p /\
  pairs (Insert p key v KM).1 = insert_sorted KM (key, v) (pairs p) /\
  (GetSize p = GetMaxSize p -> GetMaxSize (Insert p key v KM).1 < GetSize (Insert p key v KM).1).
Proof.
  intros HKM Hk Hs Hroom Hsort Hkey Hval.
  set (q := SetMaxSize p (GetSize p + 1)).
  assert (Hwf : page_wf q).
  { split; [exact Hk| |exact Hroom].
    change (0 <= GetSize p <= GetSize p + 1). lia. }
  assert (Hfit : insert_fits q key v).
  { split; [|done]. change (GetSize p < GetSize p + 1). lia. }
  destruct (Insert_spec KM q key v HKM Hwf Hsort Hfit) as (Hr & Hret & _ & Hins & _).
  pose proof (resized_header _ _ _ Hr) as (Hsz & _).
  assert (HI : Insert p key v KM
               = (SetMaxSize (Insert q key v KM).1 (GetMaxSize p), (Insert q key v KM).2)).
  { rewrite <- Insert_SetMaxSize. f_equal. by destruct p. }
  rewrite HI. cbn [fst snd].
  change (pairs (SetMaxSize ?x ?m)) with (pairs x).
  change (GetSize (SetMaxSize ?x ?m)) with (GetSize x).
  change (GetMaxSize (SetMaxSize ?x ?m)) with m.
  change (GetSize q) with (GetSize p) in *. change (pairs q) with (pairs p) in *.
  rewrite Hret, Hsz, Hins. repeat split; try done. lia.
Qed.

(** X12: [RemoveAndDeleteRecord] does not clear the array.  When it removes
    the pair of slot [i], the slots from the former last one on read as
    before; the former last pair stays in the array, right behind the live
    pairs, and the array keeps its length. *)
Theorem Remove_leaves_stale_slot KM p key i :
  key_order KM -> page_wf p -> sorted KM (pairs p) ->
  0 <= i < GetSize p -> CompareKeys KM key (KeyAt p i) = 0 ->
  (forall j, GetSize p - 1 <= j ->
     GetItem (RemoveAndDeleteRecord p key KM).1 j = GetItem p j) /\
  length (data_ (RemoveAndDeleteRecord p key KM).1) = length (data_ p).
Proof.
  intros HKM Hwf Hsort Hi Heq.
  destruct (Remove_found KM p key i HKM Hwf Hsort Hi Heq) as (-> & Hr & _).
  cbn [fst]. split; [|apply Hr].
  intros j Hj. unfold remove_at.
  change (GetItem (IncreaseSize ?q (-1)) j) with (GetItem q j).
  destruct (shift_left_loop_spec p i (wf_key_size p Hwf) ltac:(lia) (wf_live_room p Hwf))
    as [_ Hget].
  rewrite Hget by lia. case_decide; [lia|done].
Qed.

(** *** Split and merge *)

Lemma mem_write_nil buf off : Mem.write buf off [] = buf.
Proof.
  unfold Mem.write. simpl. rewrite Nat.add_0_r, take_drop. apply firstn_all.
Qed.

(** X13: a page with at most one pair is not split: [MoveHalfTo] moves
    [size / 2 = 0] pairs and leaves both pages, headers and arrays, exactly as
    they were, whatever the recipient is. *)
Theorem MoveHalfTo_small p r :
  0 <= GetSize p <= 1 -> MoveHalfTo p r = (p, r).
Proof.
  intros Hs. unfold MoveHalfTo. cbv zeta.
  assert (Hq : GetSize p `quot` 2 = 0).
  { assert (H : GetSize p = 0 \/ GetSize p = 1) by lia. by destruct H as [->| ->]. }
  rewrite Hq. f_equal.
  - destruct p. unfold SetSize, GetSize. simpl. f_equal. lia.
  - unfold CopyNFrom. cbv zeta. rewrite Z.mul_0_l. simpl.
    rewrite mem_write_nil. destruct r. unfold IncreaseSize, SetSize, with_data, GetSize.
    simpl. f_equal. lia.
Qed.

Lemma sorted_drop KM l (n : nat) : sorted KM l -> sorted KM (drop n l).
Proof.
  intros Hs. rewrite <- (take_drop n l) in Hs. by apply StronglySorted_app_1_r in Hs.
Qed.

(** X14: [MoveHalfTo] keeps the invariants of the page: for a sorted page
    within its capacity and a recipient freshly initialized with the same key
    size and a capacity that its array holds and that is at least half the
    size, both pages are within their capacity and sorted afterwards. *)
Theorem MoveHalfTo_keeps_invariants KM p raw page_id parent_id max_size :
  page_wf p -> sorted KM (pairs p) ->
  GetSize p `div` 2 <= max_size ->
  max_size * pair_size p <= Z.of_nat (length (data_ raw)) ->
  page_wf (MoveHalfTo p (Init raw page_id parent_id (GetKeySize p) max_size)).1 /\
  page_wf (MoveHalfTo p (Init raw page_id parent_id (GetKeySize p) max_size)).2 /\
  sorted KM (pairs (MoveHalfTo p (Init raw page_id parent_id (GetKeySize p) max_size)).1) /\
  sorted KM (pairs (MoveHalfTo p (Init raw page_id parent_id (GetKeySize p) max_size)).2).
Proof.
  intros Hwf Hsort Hhalf Hroom.
  pose proof (wf_size p Hwf) as Hs. pose proof (wf_key_size p Hwf) as Hk.
  pose proof (pair_size_nonneg p Hk) as Hps.
  destruct (half_split (GetSize p) ltac:(lia)) as (_ & Hlo & Hhi).
  set (r := Init raw page_id parent_id (GetKeySize p) max_size).
  assert (Hwfr : page_wf r) by (apply Init_wf; [done|lia|done]).
  assert (Hroom' : GetSize p `div` 2 * pair_size r <= Z.of_nat (length (data_ r))).
  { change (GetSize p `div` 2 * pair_size p <= Z.of_nat (length (data_ raw))). nia. }
  destruct (MoveHalfTo_spec p r Hwf eq_refl eq_refl Hroom') as (Hl & Hr & Hpl & Hpr).
  split; [|split; [|split]].
  - apply (resized_wf p _ _ Hl Hwf). lia.
  - apply (resized_wf r _ _ Hr Hwfr). change (GetMaxSize r) with max_size. lia.
  - rewrite Hpl. by apply sorted_take.
  - rewrite Hpr. by apply sorted_drop.
Qed.

Lemma MoveAllTo_spec p r :
  0 <= GetKeySize p -> 0 <= GetSize p ->
  GetSize p * pair_size p <= Z.of_nat (length (data_ p)) ->
  GetKeySize r = GetKeySize p -> 0 <= GetSize r ->
  (GetSize r + GetSize p) * pair_size r <= Z.of_nat (length (data_ r)) ->
  resized p (MoveAllTo p r).1 0 /\
  pairs (MoveAllTo p r).1 = [] /\
  pairs (MoveAllTo p r).2 = pairs r ++ pairs p /\
  GetSize (MoveAllTo p r).2 = GetSize r + GetSize p /\
  GetKeySize (MoveAllTo p r).2 = GetKeySize r /\
  GetMaxSize (MoveAllTo p r).2 = GetMaxSize r /\
  length (data_ (MoveAllTo p r).2) = length (data_ r) /\
  GetNextPageId (MoveAllTo p r).2 = GetNextPageId p.
Proof.
  intros Hk Hs Hlive Hks Hsr Hroom.
  unfold MoveAllTo. cbv zeta. cbn [fst snd].
  destruct (CopyNFrom_spec p r 0 (GetSize p)) as [Hres Hp]; try (done || lia).
  pose proof (resized_header _ _ _ Hres) as (Hsz & Hks' & Hms & _).
  split; [split; [by destruct p|done]|].
  split; [done|]. rewrite pairs_SetNextPageId, Hp.
  repeat split; try done. apply Hres.
Qed.

(** X15: a split undone by a merge.  After [MoveHalfTo] into a freshly
    initialized page, [MoveAllTo] from the right page back into the left page
    gives the left page the pairs and the size the page had before the split
    and leaves the right page empty.  The left page then has the next page id
    of the right page, which is still the [INVALID_PAGE_ID] of [Init]:
    neither call links the two pages. *)
Theorem MoveAllTo_after_MoveHalfTo p raw page_id parent_id max_size :
  page_wf p ->
  (GetSize p `div` 2) * pair_size p <= Z.of_nat (length (data_ raw)) ->
  pairs (MoveAllTo (MoveHalfTo p (Init raw page_id parent_id (GetKeySize p) max_size)).2
                   (MoveHalfTo p (Init raw page_id parent_id (GetKeySize p) max_size)).1).2
    = pairs p /\
  GetSize (MoveAllTo (MoveHalfTo p (Init raw page_id parent_id (GetKeySize p) max_size)).2
                     (MoveHalfTo p (Init raw page_id parent_id (GetKeySize p) max_size)).1).2
    = GetSize p /\
  pairs (MoveAllTo (MoveHalfTo p (Init raw page_id parent_id (GetKeySize p) max_size)).2
                   (MoveHalfTo p (Init raw page_id parent_id (GetKeySize p) max_size)).1).1
    = [] /\
  GetNextPageId
    (MoveAllTo (MoveHalfTo p (Init raw page_id parent_id (GetKeySize p) max_size)).2
               (MoveHalfTo p (Init raw page_id parent_id (GetKeySize p) max_size)).1).2
    = INVALID_PAGE_ID.
Proof.
  intros Hwf Hroom.
  pose proof (wf_size p Hwf) as Hs. pose proof (wf_key_size p Hwf) as Hk.
  pose proof (wf_live_room p Hwf) as Hlive.
  destruct (half_split (GetSize p) ltac:(lia)) as (Hsum & Hlo & Hhi).
  set (r := Init raw page_id parent_id (GetKeySize p) max_size).
  destruct (MoveHalfTo_spec p r Hwf eq_refl eq_refl Hroom) as (Hl & Hr & Hpl & Hpr).
  set (l' := (MoveHalfTo p r).1) in *. set (r' := (MoveHalfTo p r).2) in *.
  pose proof (resized_header _ _ _ Hl) as (Hszl & Hksl & _ & _ & _ & _ & _ & Hpsl).
  pose proof (resized_header _ _ _ Hr) as (Hszr & Hksr & _ & Hnext & _ & _ & _ & Hpsr).
  destruct Hl as [_ Hlenl]. destruct Hr as [_ Hlenr].
  clearbody l' r'.
  destruct (MoveAllTo_spec r' l') as (_ & Hemp & Hp & Hsz & _ & _ & _ & Hn).
  - by rewrite Hksr.
  - lia.
  - rewrite Hszr, Hpsr, Hlenr. exact Hroom.
  - by rewrite Hksl, Hksr.
  - lia.
  - rewrite Hszl, Hszr, Hpsl, Hlenl.
    replace ((GetSize p + 1) `div` 2 + GetSize p `div` 2) with (GetSize p) by lia.
    done.
  - rewrite Hp, Hsz, Hpl, Hpr, Hszl, Hszr, take_drop, Hn, Hnext.
    repeat split; try done. lia.
Qed.

Lemma Lookup_not_in_pairs KM p key value :
  0 <= GetSize p ->
  (forall kv, kv ∈ pairs p -> CompareKeys KM key kv.1 <> 0) ->
  (Lookup p key value KM).1 = (false, value).
Proof.
  intros Hs Hno. rewrite Lookup_absent; [done|done|].
  rewrite has_key_elem. intros (kv & Hkv & Heq). by apply (Hno kv).
Qed.

Lemma cmp_equal_lt KM key a b :
  key_order KM -> CompareKeys KM key a = 0 -> CompareKeys KM a b < 0 ->
  CompareKeys KM key b <> 0.
Proof.
  intros HKM Heq Hlt. pose proof (cmp_equal KM HKM key a b Heq). lia.
Qed.

Lemma cmp_equal_gt KM key a b :
  key_order KM -> CompareKeys KM key a = 0 -> CompareKeys KM b a < 0 ->
  CompareKeys KM key b <> 0.
Proof.
  intros HKM Heq Hlt. pose proof (cmp_equal KM HKM key a b Heq).
  pose proof (cmp_antisym KM HKM a b). lia.
Qed.

(** X16: a split loses no key and doubles none.  After [MoveHalfTo] of a
    sorted page into a freshly initialized page, a key that the page held is
    found, with its value, in exactly one of the two pages and not in the
    other; a key that the page did not hold is found in neither. *)
Theorem Lookup_after_split KM p raw page_id parent_id max_size key value :
  key_order KM -> page_wf p -> sorted KM (pairs p) ->
  (GetSize p `div` 2) * pair_size p <= Z.of_nat (length (data_ raw)) ->
  (forall kv, kv ∈ pairs p -> CompareKeys KM key kv.1 = 0 ->
     ((Lookup (MoveHalfTo p (Init raw page_id parent_id (GetKeySize p) max_size)).1
              key value KM).1 = (true, kv.2) /\
      (Lookup (MoveHalfTo p (Init raw page_id parent_id (GetKeySize p) max_size)).2
              key value KM).1 = (false, value)) \/
     ((Lookup (MoveHalfTo p (Init raw page_id parent_id (GetKeySize p) max_size)).1
              key value KM).1 = (false, value) /\
      (Lookup (MoveHalfTo p (Init raw page_id parent_id (GetKeySize p) max_size)).2
              key value KM).1 = (true, kv.2))) /\
  (~ has_key KM p key ->
     (Lookup (MoveHalfTo p (Init raw page_id parent_id (GetKeySize p) max_size)).1
             key value KM).1 = (false, value) /\
     (Lookup (MoveHalfTo p (Init raw page_id parent_id (GetKeySize p) max_size)).2
             key value KM).1 = (false, value)).
Proof.
  intros HKM Hwf Hsort Hroom.
  pose proof (wf_size p Hwf) as Hs.
  destruct (half_split (GetSize p) ltac:(lia)) as (_ & Hlo & Hhi).
  set (r := Init raw page_id parent_id (GetKeySize p) max_size).
  destruct (MoveHalfTo_spec p r Hwf eq_refl eq_refl Hroom) as (Hl & Hr & Hpl & Hpr).
  pose proof (resized_header _ _ _ Hl) as (Hszl & _).
  pose proof (resized_header _ _ _ Hr) as (Hszr & _).
  set (l' := (MoveHalfTo p r).1) in *. set (r' := (MoveHalfTo p r).2) in *.
  clearbody l' r'.
  set (h := Z.to_nat ((GetSize p + 1) `div` 2)) in *.
  assert (Hsl : sorted KM (pairs l')) by (rewrite Hpl; by apply sorted_take).
  assert (Hsr : sorted KM (pairs r')) by (rewrite Hpr; by apply sorted_drop).
  split.
  - intros kv Hkv Heq.
    rewrite <- (take_drop h (pairs p)) in Hkv. apply elem_of_app in Hkv as [Hin|Hin].
    + left. split.
      * rewrite (Lookup_in_pairs KM l' key value kv); [done|done|done| |done].
        by rewrite Hpl.
      * apply Lookup_not_in_pairs; [lia|]. intros kv' Hkv'. rewrite Hpr in Hkv'.
        pose proof (sorted_take_drop_lt KM _ h kv kv' Hsort Hin Hkv') as Hlt.
        by apply (cmp_equal_lt KM key kv.1).
    + right. split.
      * apply Lookup_not_in_pairs; [lia|]. intros kv' Hkv'. rewrite Hpl in Hkv'.
        pose proof (sorted_take_drop_lt KM _ h kv' kv Hsort Hkv' Hin) as Hlt.
        by apply (cmp_equal_gt KM key kv.1).
      * rewrite (Lookup_in_pairs KM r' key value kv); [done|done|done| |done].
        by rewrite Hpr.
  - intros Habs. split; (apply Lookup_not_in_pairs; [lia|]); intros kv Hkv Heq;
      apply Habs, has_key_elem; exists kv; (split; [|done]).
    + rewrite Hpl in Hkv. by apply elem_of_take in Hkv as (i & Hi%list_elem_of_lookup_2 & _).
    + rewrite Hpr in Hkv. rewrite <- (take_drop h (pairs p)). apply elem_of_app. by right.
Qed.

(** X17: a merge loses no key.  Under the conditions of the merge (sorted
    pages of one key size, the keys of the recipient before those of this
    page, room for all pairs), after [MoveAllTo] a key that either page held
    is found in the recipient with its value, a key that neither held is not
    found, and both pages are within their capacity. *)
Theorem Lookup_after_merge KM p r key value :
  key_order KM -> page_wf p -> page_wf r -> GetKeySize r = GetKeySize p ->
  sorted KM (pairs p) -> sorted KM (pairs r) ->
  keys_before KM (pairs r) (pairs p) ->
  GetSize r + GetSize p <= GetMaxSize r ->
  (forall kv, kv ∈ pairs r \/ kv ∈ pairs p -> CompareKeys KM key kv.1 = 0 ->
     Lookup (MoveAllTo p r).2 key value KM = (true, kv.2, (MoveAllTo p r).2)) /\
  (~ has_key KM r key -> ~ has_key KM p key ->
     Lookup (MoveAllTo p r).2 key value KM = (false, value, (MoveAllTo p r).2)) /\
  page_wf (MoveAllTo p r).1 /\ page_wf (MoveAllTo p r).2.
Proof.
  intros HKM Hwfp Hwfr Hks Hsp Hsr Hord Hfit.
  pose proof (wf_size p Hwfp) as Hs. pose proof (wf_size r Hwfr) as Hs'.
  pose proof (wf_key_size r Hwfr) as Hk'. pose proof (wf_room r Hwfr) as Hroom.
  pose proof (pair_size_nonneg r Hk') as Hps.
  destruct (MoveAllTo_spec p r (wf_key_size p Hwfp) ltac:(lia) (wf_live_room p Hwfp)
              Hks ltac:(lia) ltac:(nia))
    as (Hrp & _ & Hp & Hsz & Hksm & Hmsm & Hlen & _).
  assert (Hsm : sorted KM (pairs (MoveAllTo p r).2)).
  { rewrite Hp. apply StronglySorted_app_2; [by apply keys_before_elem|done|done]. }
  split; [|split; [|split]].
  - intros kv Hkv Heq. apply Lookup_in_pairs; [done|done| |done].
    rewrite Hp. by apply elem_of_app.
  - intros Hnr Hnp. apply Lookup_absent; [lia|].
    rewrite has_key_elem. intros (kv & Hkv & Heq).
    rewrite Hp in Hkv. apply elem_of_app in Hkv as [Hkv|Hkv].
    + apply Hnr, has_key_elem. by exists kv.
    + apply Hnp, has_key_elem. by exists kv.
  - apply (resized_wf p _ _ Hrp Hwfp). lia.
  - split.
    + by rewrite Hksm.
    + rewrite Hsz, Hmsm. lia.
    + unfold pair_size in *. rewrite Hmsm, Hksm, Hlen. done.
Qed.

(** *** Redistribution *)

Lemma SetSize_resized p n : resized p (SetSize p n) n.
Proof. split; [by destruct p|done]. Qed.

(** X18: a pair lent is a pair returned.  For two pages of one key size
    within their capacity, this page not empty and the recipient with a free
    slot: [MoveFirstToEndOf] followed by [MoveLastToFrontOf] in the other
    direction, and [MoveLastToFrontOf] followed by [MoveFirstToEndOf] in the
    other direction, both give back the pairs of both pages; after either
    single move both pages are within their capacity. *)
Theorem redistribute_round_trip p r :
  page_wf p -> page_wf r -> GetKeySize r = GetKeySize p ->
  0 < GetSize p -> GetSize r < GetMaxSize r ->
  (pairs (MoveLastToFrontOf (MoveFirstToEndOf p r).2 (MoveFirstToEndOf p r).1).2 = pairs p /\
   pairs (MoveLastToFrontOf (MoveFirstToEndOf p r).2 (MoveFirstToEndOf p r).1).1 = pairs r) /\
  (pairs (MoveFirstToEndOf (MoveLastToFrontOf p r).2 (MoveLastToFrontOf p r).1).2 = pairs p /\
   pairs (MoveFirstToEndOf (MoveLastToFrontOf p r).2 (MoveLastToFrontOf p r).1).1 = pairs r) /\
  (page_wf (MoveFirstToEndOf p r).1 /\ page_wf (MoveFirstToEndOf p r).2 /\
   page_wf (MoveLastToFrontOf p r).1 /\ page_wf (MoveLastToFrontOf p r).2).
Proof.
  intros Hwfp Hwfr Hks Hpos Hfree.
  pose proof (wf_size p Hwfp) as Hs. pose proof (wf_size r Hwfr) as Hs'.
  (* the first pair goes to the end of [r] *)
  destruct (remove_at_spec p 0 Hwfp ltac:(lia)) as [Hr1 Hp1].
  assert (Hfit1 : insert_fits r (KeyAt p 0) (ValueAt p 0))
    by (apply borrowed_fits; (done || lia)).
  destruct (CopyLastFrom_spec r (KeyAt p 0) (ValueAt p 0) Hwfr Hfit1) as [Hr2 Hp2].
  pose proof (resized_header _ _ _ Hr1) as (Hsz1 & Hks1 & Hms1 & _).
  pose proof (resized_header _ _ _ Hr2) as (Hsz2 & Hks2 & Hms2 & _).
  assert (Hwf1 : page_wf (remove_at p 0)) by (apply (resized_wf p _ _ Hr1 Hwfp); lia).
  assert (Hwf2 : page_wf (CopyLastFrom r (KeyAt p 0) (ValueAt p 0)))
    by (apply (resized_wf r _ _ Hr2 Hwfr); lia).
  assert (Hhd : pairs p = GetItem p 0 :: delete 0%nat (pairs p)).
  { assert (Hl : pairs p !! 0%nat = Some (GetItem p 0)) by (apply (lookup_pairs_Z p 0); lia).
    destruct (pairs p) as [|x l]; [done|]. simpl in *. congruence. }
  (* the last pair goes to the front of [r] *)
  set (n := GetSize p - 1) in *.
  assert (Hfit3 : insert_fits r (KeyAt p n) (ValueAt p n))
    by (apply borrowed_fits; (done || lia)).
  destruct (CopyFirstFrom_spec r (KeyAt p n) (ValueAt p n) Hwfr Hfit3) as [Hr4 Hp4].
  pose proof (SetSize_resized p n) as Hr3.
  pose proof (resized_header _ _ _ Hr3) as (Hsz3 & Hks3 & Hms3 & _).
  pose proof (resized_header _ _ _ Hr4) as (Hsz4 & Hks4 & Hms4 & _).
  assert (Hwf3 : page_wf (SetSize p n)) by (apply (resized_wf p _ _ Hr3 Hwfp); lia).
  assert (Hwf4 : page_wf (CopyFirstFrom r (KeyAt p n) (ValueAt p n)))
    by (apply (resized_wf r _ _ Hr4 Hwfr); lia).
  assert (Hp3 : pairs (SetSize p n) = take (Z.to_nat n) (pairs p))
    by (apply pairs_SetSize; lia).
  assert (Htl : pairs p = take (Z.to_nat n) (pairs p) ++ [GetItem p n]).
  { rewrite <- (take_drop (Z.to_nat n) (pairs p)) at 1. f_equal.
    apply list_eq. intros k. rewrite lookup_drop.
    destruct k as [|k]; simpl.
    - rewrite Nat.add_0_r. apply lookup_pairs_Z. lia.
    - apply lookup_ge_None. rewrite length_pairs. lia. }
  rewrite (MoveFirstToEndOf_eq p r), (MoveLastToFrontOf_eq p r). cbn [fst snd]. fold n.
  split; [|split; [|done]].
  - set (p1 := remove_at p 0) in *. set (r1 := CopyLastFrom r (KeyAt p 0) (ValueAt p 0)) in *.
    clearbody p1 r1. rewrite MoveLastToFrontOf_eq. cbn [fst snd].
    assert (Hlast : GetItem r1 (GetSize r1 - 1) = GetItem p 0).
    { assert (Hl : pairs r1 !! Z.to_nat (GetSize r1 - 1) = Some (GetItem r1 (GetSize r1 - 1)))
        by (apply lookup_pairs_Z; lia).
      rewrite Hp2, Hsz2 in Hl.
      rewrite lookup_app_r in Hl by (rewrite length_pairs; lia).
      rewrite length_pairs in Hl.
      replace (Z.to_nat (GetSize r + 1 - 1) - Z.to_nat (GetSize r))%nat with 0%nat in Hl by lia.
      rewrite Hsz2. simpl in Hl. apply (inj Some) in Hl. by rewrite <- Hl. }
    unfold GetItem in Hlast. injection Hlast as -> ->.
    destruct (CopyFirstFrom_spec p1 (KeyAt p 0) (ValueAt p 0) Hwf1) as [_ Hp5].
    { destruct Hfit1 as (_ & Hkl & Hvl). split; [lia|]. split; [|done].
      rewrite Hks1. by rewrite <- Hks. }
    rewrite Hp5, Hp1, pairs_SetSize, Hp2, Hsz2 by lia. split; [symmetry; exact Hhd|].
    replace (GetSize r + 1 - 1) with (GetSize r) by lia.
    rewrite <- length_pairs. apply take_app_length.
  - set (p1 := SetSize p n) in *. set (r1 := CopyFirstFrom r (KeyAt p n) (ValueAt p n)) in *.
    clearbody p1 r1. rewrite MoveFirstToEndOf_eq. cbn [fst snd].
    assert (Hfirst : GetItem r1 0 = GetItem p n).
    { assert (Hl : pairs r1 !! Z.to_nat 0 = Some (GetItem r1 0))
        by (apply lookup_pairs_Z; lia).
      rewrite Hp4 in Hl. simpl in Hl. apply (inj Some) in Hl. by rewrite <- Hl. }
    unfold GetItem in Hfirst. injection Hfirst as -> ->.
    destruct (CopyLastFrom_spec p1 (KeyAt p n) (ValueAt p n) Hwf3) as [_ Hp5].
    { destruct Hfit3 as (_ & Hkl & Hvl). split; [lia|]. split; [|done].
      rewrite Hks3. by rewrite <- Hks. }
    destruct (remove_at_spec r1 0 Hwf4 ltac:(lia)) as [_ Hp6].
    rewrite Hp5, Hp6, Hp3, Hp4. split; [symmetry; exact Htl|done].
Qed.

(** *** Bulk copies *)

(** X19: [CopyNFrom], given the address of slot [s] of a page of the same key
    size, appends the [n] pairs of that page from slot [s] on behind the pairs
    the recipient has, which stay as they are, and adds [n] to the size; the
    rest of the header and the length of the array are not changed. *)
Theorem CopyNFrom_appends p r s n :
  GetKeySize r = GetKeySize p -> 0 <= GetKeySize p -> 0 <= GetSize r ->
  0 <= s -> 0 <= n ->
  (s + n) * pair_size p <= Z.of_nat (length (data_ p)) ->
  (GetSize r + n) * pair_size r <= Z.of_nat (length (data_ r)) ->
  pairs (CopyNFrom r (PairPtrAt p s) n) = pairs r ++ (GetItem p <$> seqZ s n) /\
  GetSize (CopyNFrom r (PairPtrAt p s) n) = GetSize r + n /\
  GetKeySize (CopyNFrom r (PairPtrAt p s) n) = GetKeySize r /\
  GetMaxSize (CopyNFrom r (PairPtrAt p s) n) = GetMaxSize r /\
  GetNextPageId (CopyNFrom r (PairPtrAt p s) n) = GetNextPageId r /\
  length (data_ (CopyNFrom r (PairPtrAt p s) n)) = length (data_ r).
Proof.
  intros Hks Hk Hsr Hs Hn Hbp Hbr.
  destruct (CopyNFrom_spec p r s n Hks Hk Hsr Hs Hn Hbp Hbr) as [Hres Hp].
  pose proof (resized_header _ _ _ Hres) as (Hsz & Hks' & Hms & Hnx & _).
  repeat split; try done. apply Hres.
Qed.

(** X20: [PairCopy] copies whole pairs: with the address of slot [s] of a page
    of the same key size as source and the address of slot [d] of the array
    as destination, the slots [d .. d + n - 1] then hold the pairs of the
    slots [s .. s + n - 1] of the source, the slots before [d] hold what they
    held, and the array keeps its length. *)
Theorem PairCopy_copies_pairs p q s d n :
  GetKeySize q = GetKeySize p -> 0 <= GetKeySize p ->
  0 <= s -> 0 <= d -> 0 <= n ->
  (s + n) * pair_size p <= Z.of_nat (length (data_ p)) ->
  (d + n) * pair_size q <= Z.of_nat (length (data_ q)) ->
  GetItem (with_data q (PairCopy q (data_ q) (PairPtrAt_off q d) (PairPtrAt p s) n))
      <$> seqZ 0 (d + n)
    = (GetItem q <$> seqZ 0 d) ++ (GetItem p <$> seqZ s n) /\
  length (PairCopy q (data_ q) (PairPtrAt_off q d) (PairPtrAt p s) n) = length (data_ q).
Proof.
  intros Hks Hk Hs Hd Hn Hbp Hbq.
  destruct (CopyNFrom_spec p (SetSize q d) s n Hks Hk Hd Hs Hn Hbp Hbq) as [_ Hp].
  split; [exact Hp|]. unfold PairCopy. apply length_mem_write.
Qed.

(** *** Sequences of updates and the capacity *)

(** X21: from a freshly initialized page, after every prefix of a sequence of
    [Insert] and [RemoveAndDeleteRecord] calls in which each [Insert] finds a
    free slot and is given a key that the page does not hold, the size is
    between [0] and [max_size], the page has that many live pairs, and key
    size, capacity and array length are those of the start. *)
Theorem run_within_capacity KM raw page_id parent_id key_size max_size ops n :
  key_order KM -> 0 <= key_size -> 0 <= max_size ->
  max_size * (key_size + Z.of_nat sizeof_RowId) <= Z.of_nat (length (data_ raw)) ->
  within_capacity KM (Init raw page_id parent_id key_size max_size) ops ->
  fresh_keys KM (Init raw page_id parent_id key_size max_size) ops ->
  0 <= GetSize (run KM (Init raw page_id parent_id key_size max_size) (take n ops))
    <= max_size /\
  length (pairs (run KM (Init raw page_id parent_id key_size max_size) (take n ops)))
    = Z.to_nat (GetSize (run KM (Init raw page_id parent_id key_size max_size) (take n ops))) /\
  GetKeySize (run KM (Init raw page_id parent_id key_size max_size) (take n ops)) = key_size /\
  GetMaxSize (run KM (Init raw page_id parent_id key_size max_size) (take n ops)) = max_size /\
  length (data_ (run KM (Init raw page_id parent_id key_size max_size) (take n ops)))
    = length (data_ raw).
Proof.
  intros HKM Hk Hm Hb Hcap Hfresh.
  set (p0 := Init raw page_id parent_id key_size max_size) in *.
  assert (Hwf0 : page_wf p0) by (by apply Init_wf).
  assert (Hs0 : sorted KM (pairs p0)) by (rewrite pairs_empty by done; constructor).
  apply (within_capacity_take KM ops p0 n) in Hcap.
  apply (fresh_keys_take KM ops p0 n) in Hfresh.
  assert (Hgen : forall l p, page_wf p -> sorted KM (pairs p) ->
            within_capacity KM p l -> fresh_keys KM p l ->
            page_wf (run KM p l) /\ GetKeySize (run KM p l) = GetKeySize p /\
            GetMaxSize (run KM p l) = GetMaxSize p /\
            length (data_ (run KM p l)) = length (data_ p)).
  { clear -HKM. intros l. induction l as [|o l IH]; intros p Hwf Hsort Hcap Hfresh; [done|].
    change (run KM p (o :: l)) with (run KM (apply_op KM p o) l).
    destruct o as [key value|key]; cbn [within_capacity fresh_keys apply_op] in *.
    - destruct Hcap as [Hfit Hcap], Hfresh as [Habs Hfresh].
      destruct (Insert_spec KM p key value HKM Hwf Hsort Hfit)
        as (Hr & _ & _ & _ & Hs' & Hwf').
      pose proof (resized_header _ _ _ Hr) as (_ & Hks & Hms & _). destruct Hr as [_ Hl].
      destruct (IH _ Hwf' (Hs' Habs) Hcap Hfresh) as (H1 & H2 & H3 & H4).
      split; [done|]. rewrite H2, H3, H4. done.
    - destruct (Remove_preserves KM p key HKM Hwf Hsort) as [Hwf' Hs'].
      assert (Hh : GetKeySize (RemoveAndDeleteRecord p key KM).1 = GetKeySize p /\
                   GetMaxSize (RemoveAndDeleteRecord p key KM).1 = GetMaxSize p /\
                   length (data_ (RemoveAndDeleteRecord p key KM).1) = length (data_ p)).
      { destruct (decide (has_key KM p key)) as [Hin|Hout].
        - apply has_key_slot in Hin as (i & Hi & Heq).
          destruct (Remove_found KM p key i HKM Hwf Hsort Hi Heq) as (-> & Hr & _).
          pose proof (resized_header _ _ _ Hr) as (_ & Hks & Hms & _).
          destruct Hr as [_ Hl]. done.
        - rewrite Remove_absent; [done|apply (wf_size p Hwf)|done]. }
      destruct Hh as (Hks & Hms & Hl).
      destruct (IH _ Hwf' Hs' Hcap Hfresh) as (H1 & H2 & H3 & H4).
      split; [done|]. rewrite H2, H3, H4. done. }
  destruct (Hgen (take n ops) p0 Hwf0 Hs0 Hcap Hfresh) as (Hwf & Hks & Hms & Hl).
  pose proof (wf_size _ Hwf) as Hs. rewrite Hms in Hs.
  split; [exact Hs|]. split; [apply length_pairs|]. done.
Qed.

End LeafPageFacts.

(** ** The concrete index *)

Section ScenarioFacts.

#[local] Existing Instance scenario_config.

Lemma IntKM_order : key_order IntKM.
Proof.
  split; simpl; intros a b.
  - destruct (Z.compare_spec (le_value a) (le_value b));
      destruct (Z.compare_spec (le_value b) (le_value a)); simpl; lia.
  - intros c.
    destruct (Z.compare_spec (le_value a) (le_value b));
      destruct (Z.compare_spec (le_value b) (le_value c));
      destruct (Z.compare_spec (le_value a) (le_value c)); simpl; lia.
  - intros c.
    destruct (Z.compare_spec (le_value a) (le_value b));
      destruct (Z.compare_spec (le_value b) (le_value c));
      destruct (Z.compare_spec (le_value a) (le_value c)); simpl; lia.
Qed.

(** C9, amended: in the scenario the three lookups succeed with the values
    inserted, [KeyIndex] of key 25 is 2, the fourth [Insert] returns 4, and
    after [MoveHalfTo] into a freshly initialized page the left page holds the
    pairs of 10 and 20 and the right page those of 30 and 40; the next page id
    of the right page equals that of the original page, and the next page id
    of the left page is the original one too ([INVALID_PAGE_ID] in both
    cases): [MoveHalfTo] does not link the left page to the right page. *)
Theorem split_scenario (page_id parent_id right_id right_parent : page_id_t) :
  Lookup (leaf3 page_id parent_id) (key32 10) (rid 0) IntKM
    = (true, rid 100, leaf3 page_id parent_id) /\
  Lookup (leaf3 page_id parent_id) (key32 20) (rid 0) IntKM
    = (true, rid 200, leaf3 page_id parent_id) /\
  Lookup (leaf3 page_id parent_id) (key32 30) (rid 0) IntKM
    = (true, rid 300, leaf3 page_id parent_id) /\
  KeyIndex (leaf3 page_id parent_id) (key32 25) IntKM = 2 /\
  (Insert (leaf3 page_id parent_id) (key32 40) (rid 400) IntKM).2 = 4 /\
  pairs (MoveHalfTo (leaf4 page_id parent_id)
                    (Init blank_page right_id right_parent 4 4)).1
    = [(key32 10, rid 100); (key32 20, rid 200)] /\
  pairs (MoveHalfTo (leaf4 page_id parent_id)
                    (Init blank_page right_id right_parent 4 4)).2
    = [(key32 30, rid 300); (key32 40, rid 400)] /\
  GetNextPageId (MoveHalfTo (leaf4 page_id parent_id)
                            (Init blank_page right_id right_parent 4 4)).2
    = GetNextPageId (leaf4 page_id parent_id) /\
  GetNextPageId (MoveHalfTo (leaf4 page_id parent_id)
                            (Init blank_page right_id right_parent 4 4)).1
    = GetNextPageId (leaf4 page_id parent_id) /\
  GetNextPageId (leaf4 page_id parent_id) = INVALID_PAGE_ID.
Proof. vm_compute. repeat split. Qed.

(** C9 as stated fails: with the leaf on page 1 and the fresh right page on
    page 2, the next page id of the left page after the split is
    [INVALID_PAGE_ID], here [-1], and not the id of the right page. *)
Lemma split_scenario_left_not_linked :
  GetNextPageId split_left = -1 /\
  GetPageId split_right = 2 /\
  pairs split_left = [(key32 10, rid 100); (key32 20, rid 200)] /\
  pairs split_right = [(key32 30, rid 300); (key32 40, rid 400)] /\
  GetNextPageId split_left <> GetPageId split_right.
Proof. vm_compute. repeat split. discriminate. Qed.

Ltac by_decide :=
  lazymatch goal with |- ?P => apply (@bool_decide_unpack P _) end; vm_compute; exact I.
Ltac by_compute := vm_compute; repeat split; discriminate.

Lemma sortedness_invariant_witness :
  sorted IntKM
    (pairs (run IntKM (Init blank_page 1 0 4 4)
                (take 4 [OpInsert (key32 30) (rid 300); OpInsert (key32 10) (rid 100);
                         OpRemove (key32 30); OpInsert (key32 20) (rid 200)]))).
Proof.
  assert (Hk : 0 <= 4) by lia.
  assert (Hroom : 4 * (4 + Z.of_nat sizeof_RowId) <= Z.of_nat (length (data_ blank_page)))
    by by_compute.
  assert (Hcap : within_capacity IntKM (Init blank_page 1 0 4 4)
                   [OpInsert (key32 30) (rid 300); OpInsert (key32 10) (rid 100);
                    OpRemove (key32 30); OpInsert (key32 20) (rid 200)])
    by (vm_compute; repeat split).
  assert (Hfresh : fresh_keys IntKM (Init blank_page 1 0 4 4)
                     [OpInsert (key32 30) (rid 300); OpInsert (key32 10) (rid 100);
                      OpRemove (key32 30); OpInsert (key32 20) (rid 200)])
    by (cbn [fresh_keys]; repeat split; by_decide).
  exact (proj1 (sortedness_invariant IntKM blank_page 1 0 4 4 _
                  IntKM_order Hk Hk Hroom Hcap Hfresh) 4%nat).
Defined.

Lemma KeyIndex_leftmost_witness :
  0 <= KeyIndex (leaf3 1 0) (key32 25) IntKM <= GetSize (leaf3 1 0).
Proof.
  assert (Hsize : 0 <= GetSize (leaf3 1 0)) by by_compute.
  assert (Hsort : sorted IntKM (pairs (leaf3 1 0))) by by_decide.
  exact (proj1 (KeyIndex_leftmost IntKM (leaf3 1 0) (key32 25) IntKM_order Hsize Hsort)).
Defined.

Lemma Insert_sorted_insertion_witness :
  pairs (Insert (leaf3 1 0) (key32 25) (rid 250) IntKM).1
    = insert_sorted IntKM (key32 25, rid 250) (pairs (leaf3 1 0)).
Proof.
  assert (Hwf : page_wf (leaf3 1 0)) by (split; by_compute).
  assert (Hsort : sorted IntKM (pairs (leaf3 1 0))) by by_decide.
  assert (Hfit : insert_fits (leaf3 1 0) (key32 25) (rid 250))
    by (vm_compute; repeat split).
  assert (Habs : ~ has_key IntKM (leaf3 1 0) (key32 25)) by by_decide.
  exact (proj1 (Insert_sorted_insertion IntKM (leaf3 1 0) (key32 25) (rid 250)
                  IntKM_order Hwf Hsort Hfit Habs)).
Defined.

Lemma Lookup_correct_witness :
  Lookup (leaf3 1 0) (key32 20) (rid 0) IntKM = (true, ValueAt (leaf3 1 0) 1, leaf3 1 0).
Proof.
  assert (Hsize : 0 <= GetSize (leaf3 1 0)) by by_compute.
  assert (Hsort : sorted IntKM (pairs (leaf3 1 0))) by by_decide.
  assert (Hi : 0 <= 1 < GetSize (leaf3 1 0)) by (vm_compute; repeat split; discriminate).
  assert (Heq : CompareKeys IntKM (key32 20) (KeyAt (leaf3 1 0) 1) = 0)
    by (vm_compute; reflexivity).
  exact (proj1 (Lookup_correct IntKM (leaf3 1 0) (key32 20) (rid 0) IntKM_order Hsize Hsort)
               1 Hi Heq).
Defined.

Lemma Remove_correct_witness :
  pairs (RemoveAndDeleteRecord (leaf3 1 0) (key32 20) IntKM).1
    = delete (Z.to_nat 1) (pairs (leaf3 1 0)).
Proof.
  assert (Hwf : page_wf (leaf3 1 0)) by (split; by_compute).
  assert (Hsort : sorted IntKM (pairs (leaf3 1 0))) by by_decide.
  assert (Hi : 0 <= 1 < GetSize (leaf3 1 0)) by (vm_compute; repeat split; discriminate).
  assert (Heq : CompareKeys IntKM (key32 20) (KeyAt (leaf3 1 0) 1) = 0)
    by (vm_compute; reflexivity).
  exact (proj1 (proj1 (Remove_correct IntKM (leaf3 1 0) (key32 20) IntKM_order Hwf Hsort)
                      1 Hi Heq)).
Defined.

Lemma MoveHalfTo_split_witness :
  pairs (MoveHalfTo (leaf3 1 0) (Init blank_page 2 0 (GetKeySize (leaf3 1 0)) 4)).1
    ++ pairs (MoveHalfTo (leaf3 1 0) (Init blank_page 2 0 (GetKeySize (leaf3 1 0)) 4)).2
    = pairs (leaf3 1 0).
Proof.
  assert (Hwf : page_wf (leaf3 1 0)) by (split; by_compute).
  assert (Hsort : sorted IntKM (pairs (leaf3 1 0))) by by_decide.
  assert (Hroom : (GetSize (leaf3 1 0) `div` 2) * pair_size (leaf3 1 0)
                  <= Z.of_nat (length (data_ blank_page))) by by_compute.
  pose proof (MoveHalfTo_split IntKM (leaf3 1 0) blank_page 2 0 4 Hwf Hsort Hroom) as H.
  exact (proj2 (proj2 (proj2 (proj2 (proj2 (proj2 H)))))).
Defined.

Lemma MoveAllTo_merge_witness :
  pairs (MoveAllTo split_right split_left).2 = pairs split_left ++ pairs split_right.
Proof.
  assert (Hwfp : page_wf split_right) by (split; by_compute).
  assert (Hwfr : page_wf split_left) by (split; by_compute).
  assert (Hks : GetKeySize split_left = GetKeySize split_right) by (vm_compute; reflexivity).
  assert (Hsp : sorted IntKM (pairs split_right)) by by_decide.
  assert (Hsr : sorted IntKM (pairs split_left)) by by_decide.
  assert (Hord : keys_before IntKM (pairs split_left) (pairs split_right)) by by_decide.
  assert (Hfit : GetSize split_left + GetSize split_right <= GetMaxSize split_left)
    by by_compute.
  exact (proj1 (MoveAllTo_merge IntKM split_right split_left
                  Hwfp Hwfr Hks Hsp Hsr Hord Hfit)).
Defined.

Lemma redistribute_correct_witness :
  pairs (MoveFirstToEndOf split_right split_left).2
    = pairs split_left ++ [GetItem split_right 0] /\
  pairs (MoveLastToFrontOf split_left split_right).2
    = GetItem split_left (GetSize split_left - 1) :: pairs split_right.
Proof.
  assert (Hwfr : page_wf split_right) by (split; by_compute).
  assert (Hwfl : page_wf split_left) by (split; by_compute).
  assert (Hks : GetKeySize split_left = GetKeySize split_right) by (vm_compute; reflexivity).
  assert (Hks' : GetKeySize split_right = GetKeySize split_left) by (vm_compute; reflexivity).
  assert (Hposr : 0 < GetSize split_right) by (vm_compute; reflexivity).
  assert (Hposl : 0 < GetSize split_left) by (vm_compute; reflexivity).
  assert (Hfreel : GetSize split_left < GetMaxSize split_left) by (vm_compute; reflexivity).
  assert (Hfreer : GetSize split_right < GetMaxSize split_right) by (vm_compute; reflexivity).
  assert (Hsr : sorted IntKM (pairs split_right)) by by_decide.
  assert (Hsl : sorted IntKM (pairs split_left)) by by_decide.
  assert (Hord : keys_before IntKM (pairs split_left) (pairs split_right)) by by_decide.
  split.
  - exact (proj1 (proj2 (proj1 (redistribute_correct IntKM split_right split_left
                                  Hwfr Hwfl Hks Hposr Hfreel Hsr Hsl) Hord))).
  - exact (proj1 (proj2 (proj2 (redistribute_correct IntKM split_left split_right
                                  Hwfl Hwfr Hks' Hposl Hfreer Hsl Hsr) Hord))).
Defined.

(** C1 as stated fails: [Insert] does not look for the key, so a second
    [Insert] of key 10, on a page with a free slot, stores a second pair of
    key 10 in front of the first; the pairs are no longer strictly
    ascending. *)
Lemma Insert_duplicate_key :
  within_capacity IntKM (leaf0 1 0)
    [OpInsert (key32 10) (rid 100); OpInsert (key32 10) (rid 111)] /\
  pairs (run IntKM (leaf0 1 0)
           [OpInsert (key32 10) (rid 100); OpInsert (key32 10) (rid 111)])
    = [(key32 10, rid 111); (key32 10, rid 100)] /\
  ~ sorted IntKM
      (pairs (run IntKM (leaf0 1 0)
                [OpInsert (key32 10) (rid 100); OpInsert (key32 10) (rid 111)])) /\
  page_wf (run IntKM (leaf0 1 0) [OpInsert (key32 10) (rid 100)]) /\
  sorted IntKM (pairs (run IntKM (leaf0 1 0) [OpInsert (key32 10) (rid 100)])) /\
  insert_fits (run IntKM (leaf0 1 0) [OpInsert (key32 10) (rid 100)])
    (key32 10) (rid 111) /\
  ~ sorted IntKM
      (pairs (Insert (run IntKM (leaf0 1 0) [OpInsert (key32 10) (rid 100)])
                (key32 10) (rid 111) IntKM).1).
Proof.
  split; [vm_compute; repeat split|].
  split; [vm_compute; reflexivity|].
  split; [by_decide|].
  split; [split; by_compute|].
  split; [by_decide|].
  split; [vm_compute; repeat split|].
  by_decide.
Qed.

(** *** The further properties at the concrete index *)

Lemma KeyIndex_within_size_witness :
  0 <= KeyIndex (leaf3 1 0) (key32 25) IntKM <= GetSize (leaf3 1 0).
Proof.
  assert (Hsize : 0 <= GetSize (leaf3 1 0)) by by_compute.
  exact (proj1 (KeyIndex_within_size (leaf3 1 0) (key32 25) IntKM Hsize)).
Defined.

Lemma KeyIndex_monotone_witness :
  KeyIndex (leaf3 1 0) (key32 15) IntKM <= KeyIndex (leaf3 1 0) (key32 25) IntKM.
Proof.
  assert (Hsize : 0 <= GetSize (leaf3 1 0)) by by_compute.
  assert (Hsort : sorted IntKM (pairs (leaf3 1 0))) by by_decide.
  assert (Hle : CompareKeys IntKM (key32 15) (key32 25) <= 0) by by_compute.
  exact (KeyIndex_monotone IntKM (leaf3 1 0) (key32 15) (key32 25)
           IntKM_order Hsize Hsort Hle).
Defined.

Lemma store_pair_read_back_witness :
  KeyAt (SetValueAt (SetKeyAt (leaf3 1 0) 3 (key32 99)) 3 (rid 999)) 3 = key32 99.
Proof.
  assert (Hk : 0 <= GetKeySize (leaf3 1 0)) by by_compute.
  assert (Hslot : slot_in_buffer (leaf3 1 0) 3) by by_compute.
  assert (Hkey : length (key32 99) = Z.to_nat (GetKeySize (leaf3 1 0)))
    by (vm_compute; reflexivity).
  assert (Hval : length (rid 999) = sizeof_RowId) by (vm_compute; reflexivity).
  exact (proj1 (store_pair_read_back (leaf3 1 0) 3 (key32 99) (rid 999)
                  Hk Hslot Hkey Hval)).
Defined.

Lemma pairs_layout_witness :
  concat ((fun kv => kv.1 ++ kv.2) <$> pairs (leaf3 1 0))
    = take (Z.to_nat (GetSize (leaf3 1 0) * pair_size (leaf3 1 0))) (data_ (leaf3 1 0)).
Proof.
  assert (Hk : 0 <= GetKeySize (leaf3 1 0)) by by_compute.
  assert (Hsize : 0 <= GetSize (leaf3 1 0)) by by_compute.
  exact (pairs_layout (leaf3 1 0) Hk Hsize).
Defined.

Lemma Lookup_Insert_other_witness :
  (Lookup (Insert (leaf3 1 0) (key32 25) (rid 250) IntKM).1 (key32 20) (rid 0) IntKM).1
    = (Lookup (leaf3 1 0) (key32 20) (rid 0) IntKM).1.
Proof.
  assert (Hwf : page_wf (leaf3 1 0)) by (split; by_compute).
  assert (Hsort : sorted IntKM (pairs (leaf3 1 0))) by by_decide.
  assert (Hfit : insert_fits (leaf3 1 0) (key32 25) (rid 250))
    by (vm_compute; repeat split).
  assert (Habs : ~ has_key IntKM (leaf3 1 0) (key32 25)) by by_decide.
  assert (Hne : CompareKeys IntKM (key32 20) (key32 25) <> 0) by by_compute.
  exact (Lookup_Insert_other IntKM (leaf3 1 0) (key32 25) (rid 250) (key32 20) (rid 0)
           IntKM_order Hwf Hsort Hfit Habs Hne).
Defined.

Lemma Lookup_Remove_other_witness :
  (Lookup (RemoveAndDeleteRecord (leaf3 1 0) (key32 20) IntKM).1 (key32 30) (rid 0) IntKM).1
    = (Lookup (leaf3 1 0) (key32 30) (rid 0) IntKM).1.
Proof.
  assert (Hwf : page_wf (leaf3 1 0)) by (split; by_compute).
  assert (Hsort : sorted IntKM (pairs (leaf3 1 0))) by by_decide.
  assert (Hne : CompareKeys IntKM (key32 30) (key32 20) <> 0) by by_compute.
  exact (Lookup_Remove_other IntKM (leaf3 1 0) (key32 20) (key32 30) (rid 0)
           IntKM_order Hwf Hsort Hne).
Defined.

Lemma Remove_after_Insert_witness :
  pairs (RemoveAndDeleteRecord (Insert (leaf3 1 0) (key32 25) (rid 250) IntKM).1
           (key32 25) IntKM).1
    = pairs (leaf3 1 0).
Proof.
  assert (Hwf : page_wf (leaf3 1 0)) by (split; by_compute).
  assert (Hsort : sorted IntKM (pairs (leaf3 1 0))) by by_decide.
  assert (Hfit : insert_fits (leaf3 1 0) (key32 25) (rid 250))
    by (vm_compute; repeat split).
  assert (Habs : ~ has_key IntKM (leaf3 1 0) (key32 25)) by by_decide.
  exact (proj1 (Remove_after_Insert IntKM (leaf3 1 0) (key32 25) (rid 250)
                  IntKM_order Hwf Hsort Hfit Habs)).
Defined.

Lemma Insert_after_Remove_witness :
  pairs (Insert (RemoveAndDeleteRecord (leaf3 1 0) (key32 20) IntKM).1
           (KeyAt (leaf3 1 0) 1) (ValueAt (leaf3 1 0) 1) IntKM).1
    = pairs (leaf3 1 0).
Proof.
  assert (Hwf : page_wf (leaf3 1 0)) by (split; by_compute).
  assert (Hsort : sorted IntKM (pairs (leaf3 1 0))) by by_decide.
  assert (Hi : 0 <= 1 < GetSize (leaf3 1 0)) by (vm_compute; repeat split; discriminate).
  assert (Heq : CompareKeys IntKM (key32 20) (KeyAt (leaf3 1 0) 1) = 0)
    by (vm_compute; reflexivity).
  exact (proj1 (Insert_after_Remove IntKM (leaf3 1 0) (key32 20) 1
                  IntKM_order Hwf Hsort Hi Heq)).
Defined.

Lemma Insert_shadows_witness :
  Lookup (Insert (leaf3 1 0) (key32 20) (rid 222) IntKM).1 (key32 20) (rid 0) IntKM
    = (true, rid 222, (Insert (leaf3 1 0) (key32 20) (rid 222) IntKM).1).
Proof.
  assert (Hwf : page_wf (leaf3 1 0)) by (split; by_compute).
  assert (Hsort : sorted IntKM (pairs (leaf3 1 0))) by by_decide.
  assert (Hfit : insert_fits (leaf3 1 0) (key32 20) (rid 222))
    by (vm_compute; repeat split).
  exact (proj1 (Insert_shadows IntKM (leaf3 1 0) (key32 20) (rid 222) (rid 0)
                  IntKM_order Hwf Hsort Hfit)).
Defined.

Lemma Insert_ignores_capacity_witness :
  (Insert (leaf4 1 0) (key32 25) (rid 250) IntKM).2 = GetSize (leaf4 1 0) + 1.
Proof.
  assert (Hk : 0 <= GetKeySize (leaf4 1 0)) by by_compute.
  assert (Hsize : 0 <= GetSize (leaf4 1 0)) by by_compute.
  assert (Hroom : (GetSize (leaf4 1 0) + 1) * pair_size (leaf4 1 0)
                  <= Z.of_nat (length (data_ (leaf4 1 0)))) by by_compute.
  assert (Hsort : sorted IntKM (pairs (leaf4 1 0))) by by_decide.
  assert (Hkey : length (key32 25) = Z.to_nat (GetKeySize (leaf4 1 0)))
    by (vm_compute; reflexivity).
  assert (Hval : length (rid 250) = sizeof_RowId) by (vm_compute; reflexivity).
  exact (proj1 (Insert_ignores_capacity IntKM (leaf4 1 0) (key32 25) (rid 250)
                  IntKM_order Hk Hsize Hroom Hsort Hkey Hval)).
Defined.

Lemma Remove_leaves_stale_slot_witness :
  length (data_ (RemoveAndDeleteRecord (leaf3 1 0) (key32 20) IntKM).1)
    = length (data_ (leaf3 1 0)).
Proof.
  assert (Hwf : page_wf (leaf3 1 0)) by (split; by_compute).
  assert (Hsort : sorted IntKM (pairs (leaf3 1 0))) by by_decide.
  assert (Hi : 0 <= 1 < GetSize (leaf3 1 0)) by (vm_compute; repeat split; discriminate).
  assert (Heq : CompareKeys IntKM (key32 20) (KeyAt (leaf3 1 0) 1) = 0)
    by (vm_compute; reflexivity).
  exact (proj2 (Remove_leaves_stale_slot IntKM (leaf3 1 0) (key32 20) 1
                  IntKM_order Hwf Hsort Hi Heq)).
Defined.

Lemma MoveHalfTo_small_witness :
  MoveHalfTo (Insert (leaf0 1 0) (key32 10) (rid 100) IntKM).1 (Init blank_page 2 0 4 4)
    = ((Insert (leaf0 1 0) (key32 10) (rid 100) IntKM).1, Init blank_page 2 0 4 4).
Proof.
  assert (Hs : 0 <= GetSize (Insert (leaf0 1 0) (key32 10) (rid 100) IntKM).1 <= 1)
    by by_compute.
  exact (MoveHalfTo_small (Insert (leaf0 1 0) (key32 10) (rid 100) IntKM).1
           (Init blank_page 2 0 4 4) Hs).
Defined.

Lemma MoveHalfTo_keeps_invariants_witness :
  page_wf (MoveHalfTo (leaf4 1 0) (Init blank_page 2 0 (GetKeySize (leaf4 1 0)) 4)).1.
Proof.
  assert (Hwf : page_wf (leaf4 1 0)) by (split; by_compute).
  assert (Hsort : sorted IntKM (pairs (leaf4 1 0))) by by_decide.
  assert (Hhalf : GetSize (leaf4 1 0) `div` 2 <= 4) by by_compute.
  assert (Hroom : 4 * pair_size (leaf4 1 0) <= Z.of_nat (length (data_ blank_page)))
    by by_compute.
  exact (proj1 (MoveHalfTo_keeps_invariants IntKM (leaf4 1 0) blank_page 2 0 4
                  Hwf Hsort Hhalf Hroom)).
Defined.

Lemma MoveAllTo_after_MoveHalfTo_witness :
  pairs (MoveAllTo (MoveHalfTo (leaf4 1 0) (Init blank_page 2 0 (GetKeySize (leaf4 1 0)) 4)).2
                   (MoveHalfTo (leaf4 1 0) (Init blank_page 2 0 (GetKeySize (leaf4 1 0)) 4)).1).2
    = pairs (leaf4 1 0).
Proof.
  assert (Hwf : page_wf (leaf4 1 0)) by (split; by_compute).
  assert (Hroom : GetSize (leaf4 1 0) `div` 2 * pair_size (leaf4 1 0)
                  <= Z.of_nat (length (data_ blank_page))) by by_compute.
  exact (proj1 (MoveAllTo_after_MoveHalfTo (leaf4 1 0) blank_page 2 0 4 Hwf Hroom)).
Defined.

Lemma Lookup_after_split_witness :
  ((Lookup (MoveHalfTo (leaf4 1 0) (Init blank_page 2 0 (GetKeySize (leaf4 1 0)) 4)).1
           (key32 30) (rid 0) IntKM).1 = (true, (key32 30, rid 300).2) /\
   (Lookup (MoveHalfTo (leaf4 1 0) (Init blank_page 2 0 (GetKeySize (leaf4 1 0)) 4)).2
           (key32 30) (rid 0) IntKM).1 = (false, rid 0)) \/
  ((Lookup (MoveHalfTo (leaf4 1 0) (Init blank_page 2 0 (GetKeySize (leaf4 1 0)) 4)).1
           (key32 30) (rid 0) IntKM).1 = (false, rid 0) /\
   (Lookup (MoveHalfTo (leaf4 1 0) (Init blank_page 2 0 (GetKeySize (leaf4 1 0)) 4)).2
           (key32 30) (rid 0) IntKM).1 = (true, (key32 30, rid 300).2)).
Proof.
  assert (Hwf : page_wf (leaf4 1 0)) by (split; by_compute).
  assert (Hsort : sorted IntKM (pairs (leaf4 1 0))) by by_decide.
  assert (Hroom : GetSize (leaf4 1 0) `div` 2 * pair_size (leaf4 1 0)
                  <= Z.of_nat (length (data_ blank_page))) by by_compute.
  assert (Hin : (key32 30, rid 300) ∈ pairs (leaf4 1 0))
    by (apply (list_elem_of_lookup_2 _ 2%nat); vm_compute; reflexivity).
  assert (Heq : CompareKeys IntKM (key32 30) (key32 30, rid 300).1 = 0)
    by (vm_compute; reflexivity).
  exact (proj1 (Lookup_after_split IntKM (leaf4 1 0) blank_page 2 0 4 (key32 30) (rid 0)
                  IntKM_order Hwf Hsort Hroom)
               (key32 30, rid 300) Hin Heq).
Defined.

Lemma Lookup_after_merge_witness :
  Lookup (MoveAllTo split_right split_left).2 (key32 30) (rid 0) IntKM
    = (true, (key32 30, rid 300).2, (MoveAllTo split_right split_left).2).
Proof.
  assert (Hwfp : page_wf split_right) by (split; by_compute).
  assert (Hwfr : page_wf split_left) by (split; by_compute).
  assert (Hks : GetKeySize split_left = GetKeySize split_right) by (vm_compute; reflexivity).
  assert (Hsp : sorted IntKM (pairs split_right)) by by_decide.
  assert (Hsr : sorted IntKM (pairs split_left)) by by_decide.
  assert (Hord : keys_before IntKM (pairs split_left) (pairs split_right)) by by_decide.
  assert (Hfit : GetSize split_left + GetSize split_right <= GetMaxSize split_left)
    by by_compute.
  assert (Hin : (key32 30, rid 300) ∈ pairs split_left
                \/ (key32 30, rid 300) ∈ pairs split_right)
    by (right; apply (list_elem_of_lookup_2 _ 0%nat); vm_compute; reflexivity).
  assert (Heq : CompareKeys IntKM (key32 30) (key32 30, rid 300).1 = 0)
    by (vm_compute; reflexivity).
  exact (proj1 (Lookup_after_merge IntKM split_right split_left (key32 30) (rid 0)
                  IntKM_order Hwfp Hwfr Hks Hsp Hsr Hord Hfit)
               (key32 30, rid 300) Hin Heq).
Defined.

Lemma redistribute_round_trip_witness :
  pairs (MoveLastToFrontOf (MoveFirstToEndOf split_right split_left).2
                           (MoveFirstToEndOf split_right split_left).1).2
    = pairs split_right /\
  pairs (MoveLastToFrontOf (MoveFirstToEndOf split_right split_left).2
                           (MoveFirstToEndOf split_right split_left).1).1
    = pairs split_left.
Proof.
  assert (Hwfp : page_wf split_right) by (split; by_compute).
  assert (Hwfr : page_wf split_left) by (split; by_compute).
  assert (Hks : GetKeySize split_left = GetKeySize split_right) by (vm_compute; reflexivity).
  assert (Hpos : 0 < GetSize split_right) by (vm_compute; reflexivity).
  assert (Hfree : GetSize split_left < GetMaxSize split_left) by (vm_compute; reflexivity).
  exact (proj1 (redistribute_round_trip split_right split_left Hwfp Hwfr Hks Hpos Hfree)).
Defined.

Lemma CopyNFrom_appends_witness :
  pairs (CopyNFrom (Init blank_page 2 0 4 4) (PairPtrAt (leaf3 1 0) 1) 2)
    = pairs (Init blank_page 2 0 4 4) ++ (GetItem (leaf3 1 0) <$> seqZ 1 2).
Proof.
  assert (Hks : GetKeySize (Init blank_page 2 0 4 4) = GetKeySize (leaf3 1 0))
    by (vm_compute; reflexivity).
  assert (Hk : 0 <= GetKeySize (leaf3 1 0)) by by_compute.
  assert (Hsr : 0 <= GetSize (Init blank_page 2 0 4 4)) by by_compute.
  assert (Hs : 0 <= 1) by lia.
  assert (Hn : 0 <= 2) by lia.
  assert (Hbp : (1 + 2) * pair_size (leaf3 1 0) <= Z.of_nat (length (data_ (leaf3 1 0))))
    by by_compute.
  assert (Hbr : (GetSize (Init blank_page 2 0 4 4) + 2) * pair_size (Init blank_page 2 0 4 4)
                <= Z.of_nat (length (data_ (Init blank_page 2 0 4 4)))) by by_compute.
  exact (proj1 (CopyNFrom_appends (leaf3 1 0) (Init blank_page 2 0 4 4) 1 2
                  Hks Hk Hsr Hs Hn Hbp Hbr)).
Defined.

Lemma PairCopy_copies_pairs_witness :
  length (PairCopy split_left (data_ split_left) (PairPtrAt_off split_left 1)
                   (PairPtrAt (leaf3 1 0) 1) 2)
    = length (data_ split_left).
Proof.
  assert (Hks : GetKeySize split_left = GetKeySize (leaf3 1 0)) by (vm_compute; reflexivity).
  assert (Hk : 0 <= GetKeySize (leaf3 1 0)) by by_compute.
  assert (H1 : 0 <= 1) by lia.
  assert (H2 : 0 <= 2) by lia.
  assert (Hbp : (1 + 2) * pair_size (leaf3 1 0) <= Z.of_nat (length (data_ (leaf3 1 0))))
    by by_compute.
  assert (Hbq : (1 + 2) * pair_size split_left <= Z.of_nat (length (data_ split_left)))
    by by_compute.
  exact (proj2 (PairCopy_copies_pairs (leaf3 1 0) split_left 1 1 2
                  Hks Hk H1 H1 H2 Hbp Hbq)).
Defined.

Lemma run_within_capacity_witness :
  0 <= GetSize (run IntKM (Init blank_page 1 0 4 4)
                  (take 4 [OpInsert (key32 30) (rid 300); OpInsert (key32 10) (rid 100);
                           OpRemove (key32 30); OpInsert (key32 20) (rid 200)]))
    <= 4.
Proof.
  assert (Hk : 0 <= 4) by lia.
  assert (Hroom : 4 * (4 + Z.of_nat sizeof_RowId) <= Z.of_nat (length (data_ blank_page)))
    by by_compute.
  assert (Hcap : within_capacity IntKM (Init blank_page 1 0 4 4)
                   [OpInsert (key32 30) (rid 300); OpInsert (key32 10) (rid 100);
                    OpRemove (key32 30); OpInsert (key32 20) (rid 200)])
    by (vm_compute; repeat split).
  assert (Hfresh : fresh_keys IntKM (Init blank_page 1 0 4 4)
                     [OpInsert (key32 30) (rid 300); OpInsert (key32 10) (rid 100);
                      OpRemove (key32 30); OpInsert (key32 20) (rid 200)])
    by (cbn [fresh_keys]; repeat split; by_decide).
  exact (proj1 (run_within_capacity IntKM blank_page 1 0 4 4 _ 4%nat
                  IntKM_order Hk Hk Hroom Hcap Hfresh)).
Defined.

End ScenarioFacts.
